(** * focela/loom: little-endian binary codec and RS hash

    A shallow embedding of package [binary] (LeEncode*, LeDecode*,
    LeFillUpSize) and of package [hash] (RS, RS64), with the properties the
    specification states about them.

    Conventions.
    - A Go fixed-width integer is a [Z]; every conversion [uintN(x)] /
      [intN(x)] is written out as a reduction modulo [2^N].  The native
      [int] / [uint] are the 64-bit ones.
    - A [[]byte] is a [list byte]; [byte.unsigned] and [byte.of_Z] move
      between a byte and its value.
    - A float32 / float64 is represented by its IEEE-754 bit pattern, so that
      [math.Float32bits] and [math.Float32frombits] are the identity on the
      representation.
    - A function that can panic at run time returns an [option]; [None] is
      the panic. *)

From Stdlib Require Import ZArith List Lia Bool.
From Stdlib Require String DecimalString.
Import String.StringSyntax.
Delimit Scope string_scope with string.
From coqutil Require Import Byte Word.LittleEndianList.
Import ListNotations.
Local Open Scope Z_scope.

(** ** Go integer conversions *)

Module GoInt.

(** [uintN(x)]: keep the low [w] bits. *)
Definition wrap (w x : Z) : Z := x mod 2 ^ w.

(** [intN(x)]: keep the low [w] bits, read as two's complement. *)
Definition swrap (w x : Z) : Z :=
  let u := wrap w x in
  if u <? 2 ^ (w - 1) then u else u - 2 ^ w.

Definition to_uint8 := wrap 8.
Definition to_uint16 := wrap 16.
Definition to_uint32 := wrap 32.
Definition to_uint64 := wrap 64.
Definition to_uint := wrap 64.
Definition to_int8 := swrap 8.
Definition to_int16 := swrap 16.
Definition to_int32 := swrap 32.
Definition to_int64 := swrap 64.
Definition to_int := swrap 64.

(** Constants of package [math]. *)
Definition MaxInt8 : Z := 127.
Definition MaxInt16 : Z := 32767.
Definition MaxInt32 : Z := 2147483647.
Definition MaxUint8 : Z := 255.
Definition MaxUint16 : Z := 65535.
Definition MaxUint32 : Z := 4294967295.

(** The values a signed / unsigned [w]-bit type holds. *)
Definition in_unsigned (w x : Z) : Prop := 0 <= x < 2 ^ w.
Definition in_signed (w x : Z) : Prop := - 2 ^ (w - 1) <= x < 2 ^ (w - 1).

(** [x << n] on a [w]-bit unsigned type, which drops the bits shifted out,
    and [x >> n]. *)
Definition shl (w x n : Z) : Z := wrap w (Z.shiftl x n).
Definition shr (x n : Z) : Z := Z.shiftr x n.

End GoInt.

(** ** Slices *)

Module Slice.

(** [make([]byte, n)] *)
Definition make (n : nat) : list byte := repeat Byte.x00 n.

(** [len(b)], a Go [int]. *)
Definition len (b : list byte) : Z := Z.of_nat (length b).

(** [copy(dst, src)]: the first [min(len(dst), len(src))] bytes of [dst]
    are overwritten by those of [src]. *)
Definition copy (dst src : list byte) : list byte :=
  let n := Nat.min (length dst) (length src) in
  firstn n src ++ skipn n dst.

End Slice.

(** ** encoding/binary, [binary.LittleEndian] *)

Module LittleEndian.
Import GoInt.

(** [PutUintN(b, v)] stores the bytes of [v] at [b[0..N/8)], least
    significant first.  Go panics when [b] is shorter; the encoders below
    only pass [make([]byte, N/8)]. *)
Definition PutUint16 (b : list byte) (v : Z) : list byte :=
  match b with
  | _ :: _ :: rest =>
      byte.of_Z v :: byte.of_Z (shr v 8) :: rest
  | _ => b
  end.

Definition PutUint32 (b : list byte) (v : Z) : list byte :=
  match b with
  | _ :: _ :: _ :: _ :: rest =>
      byte.of_Z v :: byte.of_Z (shr v 8) :: byte.of_Z (shr v 16)
        :: byte.of_Z (shr v 24) :: rest
  | _ => b
  end.

Definition PutUint64 (b : list byte) (v : Z) : list byte :=
  match b with
  | _ :: _ :: _ :: _ :: _ :: _ :: _ :: _ :: rest =>
      byte.of_Z v :: byte.of_Z (shr v 8) :: byte.of_Z (shr v 16)
        :: byte.of_Z (shr v 24) :: byte.of_Z (shr v 32)
        :: byte.of_Z (shr v 40) :: byte.of_Z (shr v 48)
        :: byte.of_Z (shr v 56) :: rest
  | _ => b
  end.

(** [UintN(b)] reads [b[0..N/8)]; it panics on a shorter slice. *)
Definition Uint16 (b : list byte) : option Z :=
  match b with
  | b0 :: b1 :: _ =>
      Some (Z.lor (byte.unsigned b0) (shl 16 (byte.unsigned b1) 8))
  | _ => None
  end.

Definition Uint32 (b : list byte) : option Z :=
  match b with
  | b0 :: b1 :: b2 :: b3 :: _ =>
      Some (Z.lor (Z.lor (Z.lor (byte.unsigned b0)
              (shl 32 (byte.unsigned b1) 8))
              (shl 32 (byte.unsigned b2) 16))
              (shl 32 (byte.unsigned b3) 24))
  | _ => None
  end.

Definition Uint64 (b : list byte) : option Z :=
  match b with
  | b0 :: b1 :: b2 :: b3 :: b4 :: b5 :: b6 :: b7 :: _ =>
      Some (Z.lor (Z.lor (Z.lor (Z.lor (Z.lor (Z.lor (Z.lor
              (byte.unsigned b0)
              (shl 64 (byte.unsigned b1) 8))
              (shl 64 (byte.unsigned b2) 16))
              (shl 64 (byte.unsigned b3) 24))
              (shl 64 (byte.unsigned b4) 32))
              (shl 64 (byte.unsigned b5) 40))
              (shl 64 (byte.unsigned b6) 48))
              (shl 64 (byte.unsigned b7) 56))
  | _ => None
  end.

End LittleEndian.

(** ** Package binary *)

Module Binary.
Import GoInt Slice.

(** The dynamic values [LeEncode] switches on.  [VOther] is a value of any
    other type: [structural] is what [binary.Write] produces for it, or
    [None] when [binary.Write] fails, and [rendering] is its [%v] text.
    These are the values on which [binary.Write] returns; a typed nil
    pointer, on which it panics, is not among them. *)
Inductive Value : Type :=
| VNil
| VInt (i : Z) | VInt8 (i : Z) | VInt16 (i : Z) | VInt32 (i : Z)
| VInt64 (i : Z)
| VUint (i : Z) | VUint8 (i : Z) | VUint16 (i : Z) | VUint32 (i : Z)
| VUint64 (i : Z)
| VBool (b : bool)
| VString (s : String.string)
| VBytes (b : list byte)
| VFloat32 (bits : Z)
| VFloat64 (bits : Z)
| VOther (structural : option (list byte)) (rendering : String.string).

Definition LeEncodeString (s : String.string) : list byte :=
  String.list_byte_of_string s.

Definition LeEncodeBool (b : bool) : list byte :=
  if b then [Byte.x01] else [Byte.x00].

Definition LeEncodeInt8 (i : Z) : list byte := [byte.of_Z (to_uint8 i)].

Definition LeEncodeUint8 (i : Z) : list byte := [byte.of_Z i].

Definition LeEncodeInt16 (i : Z) : list byte :=
  let b := make 2 in LittleEndian.PutUint16 b (to_uint16 i).

Definition LeEncodeUint16 (i : Z) : list byte :=
  let b := make 2 in LittleEndian.PutUint16 b i.

Definition LeEncodeInt32 (i : Z) : list byte :=
  let b := make 4 in LittleEndian.PutUint32 b (to_uint32 i).

Definition LeEncodeUint32 (i : Z) : list byte :=
  let b := make 4 in LittleEndian.PutUint32 b i.

Definition LeEncodeInt64 (i : Z) : list byte :=
  let b := make 8 in LittleEndian.PutUint64 b (to_uint64 i).

Definition LeEncodeUint64 (i : Z) : list byte :=
  let b := make 8 in LittleEndian.PutUint64 b i.

Definition LeEncodeFloat32 (bits : Z) : list byte :=
  let b := make 4 in LittleEndian.PutUint32 b bits.

Definition LeEncodeFloat64 (bits : Z) : list byte :=
  let b := make 8 in LittleEndian.PutUint64 b bits.

Definition LeEncodeInt (i : Z) : list byte :=
  if i <=? MaxInt8 then LeEncodeInt8 (to_int8 i)
  else if i <=? MaxInt16 then LeEncodeInt16 (to_int16 i)
  else if i <=? MaxInt32 then LeEncodeInt32 (to_int32 i)
  else LeEncodeInt64 (to_int64 i).

Definition LeEncodeUint (i : Z) : list byte :=
  if i <=? MaxUint8 then LeEncodeUint8 (to_uint8 i)
  else if i <=? MaxUint16 then LeEncodeUint16 (to_uint16 i)
  else if i <=? MaxUint32 then LeEncodeUint32 (to_uint32 i)
  else LeEncodeUint64 (to_uint64 i).

(** One iteration of the [switch] of [LeEncode], for a value that is not
    [nil]: the bytes written to [buf]. *)
Definition encodeValue (value : Value) : list byte :=
  match value with
  | VNil => []
  | VInt v => LeEncodeInt v
  | VInt8 v => LeEncodeInt8 v
  | VInt16 v => LeEncodeInt16 v
  | VInt32 v => LeEncodeInt32 v
  | VInt64 v => LeEncodeInt64 v
  | VUint v => LeEncodeUint v
  | VUint8 v => LeEncodeUint8 v
  | VUint16 v => LeEncodeUint16 v
  | VUint32 v => LeEncodeUint32 v
  | VUint64 v => LeEncodeUint64 v
  | VBool v => LeEncodeBool v
  | VString v => LeEncodeString v
  | VBytes v => v
  | VFloat32 v => LeEncodeFloat32 v
  | VFloat64 v => LeEncodeFloat64 v
  | VOther (Some bs) _ => bs
  | VOther None text => LeEncodeString text
  end.

(** The loop of [LeEncode]; [buf] is the content of the [bytes.Buffer]. *)
Fixpoint LeEncode_from (buf : list byte) (values : list Value) : list byte :=
  match values with
  | [] => buf
  | VNil :: _ => buf
  | value :: rest => LeEncode_from (buf ++ encodeValue value) rest
  end.

Definition LeEncode (values : list Value) : list byte :=
  LeEncode_from [] values.

(** [LeEncodeByLength]; [b[:length]] panics on a negative [length]. *)
Definition LeEncodeByLength (length : Z) (values : list Value)
  : option (list byte) :=
  let b := LeEncode values in
  if len b <? length then
    Some (b ++ make (Z.to_nat (length - len b)))
  else if len b >? length then
    if length <? 0 then None else Some (firstn (Z.to_nat length) b)
  else Some b.

(** [LeFillUpSize]; both [b[:l]] and [make([]byte, l)] panic on a negative
    [l]. *)
Definition LeFillUpSize (b : list byte) (l : Z) : option (list byte) :=
  if l <? 0 then None
  else if len b >=? l then Some (firstn (Z.to_nat l) b)
  else
    let c := make (Z.to_nat l) in
    Some (copy c b).

Definition bind {A B : Type} (m : option A) (f : A -> option B) : option B :=
  match m with
  | Some a => f a
  | None => None
  end.

Notation "x <- m ;; k" := (bind m (fun x => k))
  (at level 61, m at next level, right associativity).

Definition LeDecodeToString (b : list byte) : option String.string :=
  Some (String.string_of_list_byte b).

Definition LeDecodeToBool (b : list byte) : option bool :=
  Some (match b with
        | [] => false
        | b0 :: _ => negb (byte.unsigned b0 =? 0)
        end).

(** [b[0]], which panics on the empty slice. *)
Definition index0 (b : list byte) : option byte := hd_error b.

Definition LeDecodeToInt8 (b : list byte) : option Z :=
  b0 <- index0 b ;; Some (to_int8 (byte.unsigned b0)).

Definition LeDecodeToUint8 (b : list byte) : option Z :=
  b0 <- index0 b ;; Some (byte.unsigned b0).

Definition LeDecodeToInt16 (b : list byte) : option Z :=
  c <- LeFillUpSize b 2 ;; u <- LittleEndian.Uint16 c ;; Some (to_int16 u).

Definition LeDecodeToUint16 (b : list byte) : option Z :=
  c <- LeFillUpSize b 2 ;; LittleEndian.Uint16 c.

Definition LeDecodeToInt32 (b : list byte) : option Z :=
  c <- LeFillUpSize b 4 ;; u <- LittleEndian.Uint32 c ;; Some (to_int32 u).

Definition LeDecodeToUint32 (b : list byte) : option Z :=
  c <- LeFillUpSize b 4 ;; LittleEndian.Uint32 c.

Definition LeDecodeToInt64 (b : list byte) : option Z :=
  c <- LeFillUpSize b 8 ;; u <- LittleEndian.Uint64 c ;; Some (to_int64 u).

Definition LeDecodeToUint64 (b : list byte) : option Z :=
  c <- LeFillUpSize b 8 ;; LittleEndian.Uint64 c.

Definition LeDecodeToFloat32 (b : list byte) : option Z :=
  c <- LeFillUpSize b 4 ;; LittleEndian.Uint32 c.

Definition LeDecodeToFloat64 (b : list byte) : option Z :=
  c <- LeFillUpSize b 8 ;; LittleEndian.Uint64 c.

Definition LeDecodeToInt (b : list byte) : option Z :=
  v <- LeDecodeToInt64 b ;; Some (to_int v).

Definition LeDecodeToUint (b : list byte) : option Z :=
  v <- LeDecodeToUint64 b ;; Some (to_uint v).

(** A decoder of an [n]-byte type pads and truncates when, on every
    buffer, it returns the little-endian number [le_combine] of the buffer
    extended with zero bytes to [n] bytes, or of its first [n] bytes, as the
    type reads it ([read] is the conversion to the result type). *)
Definition pads_and_truncates
    (n : nat) (decode : list byte -> option Z) (read : Z -> Z) : Prop :=
  forall b,
    ((length b < n)%nat ->
     decode b = Some (read (le_combine (b ++ make (n - length b)))))
    /\ ((n <= length b)%nat ->
        decode b = Some (read (le_combine (firstn n b)))).

(** *** The strict decoder

    [LeDecode] reads through pointers.  The memory the pointers designate
    is a list of cells; a destination is the type of the pointee and the
    index of its cell, so that two destinations may be the same pointer.
    A cell holds the pointee as a [Z] (a bool as 0 or 1, a float as its bit
    pattern). *)

Inductive Kind : Type :=
| KBool | KInt8 | KUint8 | KInt16 | KUint16 | KInt32 | KUint32
| KInt64 | KUint64 | KFloat32 | KFloat64.

Definition Heap : Type := list Z.
Definition Slot : Type := (Kind * nat)%type.

(** [*p = v].  A pointer of the program designates a cell of the memory; on
    an index outside it [store] changes nothing.  A nil destination, on which
    [binary.Read] panics once its bytes are there, is not among the pointers
    modelled: what is stated of [LeDecode] is stated for destinations that
    designate a cell. *)
Fixpoint store (h : Heap) (p : nat) (v : Z) : Heap :=
  match h, p with
  | [], _ => []
  | _ :: t, O => v :: t
  | x :: t, S p' => x :: store t p' v
  end.

(** [intDataSize] of encoding/binary, on a pointer to a [Kind]. *)
Definition intDataSize (k : Kind) : nat :=
  match k with
  | KBool | KInt8 | KUint8 => 1
  | KInt16 | KUint16 => 2
  | KInt32 | KUint32 | KFloat32 => 4
  | KInt64 | KUint64 | KFloat64 => 8
  end%nat.

Inductive ioError : Type := EOF | ErrUnexpectedEOF.

(** [io.ReadFull(buf, bs)] with [len(bs) = n] on a [bytes.Buffer] whose
    unread part is [buf]: the unread part left, and the bytes read or the
    error.  A short read drains the buffer. *)
Definition ReadFull (buf : list byte) (n : nat)
  : list byte * (ioError + list byte) :=
  if (n <=? length buf)%nat then (skipn n buf, inr (firstn n buf))
  else
    match buf with
    | [] => ([], inl EOF)
    | _ :: _ => ([], inl ErrUnexpectedEOF)
    end.

(** [decodeFast] of encoding/binary with [binary.LittleEndian]: the value
    stored through the pointer. *)
Definition decodeFast (k : Kind) (bs : list byte) : option Z :=
  match k with
  | KBool => b0 <- index0 bs ;; Some (if byte.unsigned b0 =? 0 then 0 else 1)
  | KInt8 => b0 <- index0 bs ;; Some (to_int8 (byte.unsigned b0))
  | KUint8 => b0 <- index0 bs ;; Some (byte.unsigned b0)
  | KInt16 => u <- LittleEndian.Uint16 bs ;; Some (to_int16 u)
  | KUint16 => LittleEndian.Uint16 bs
  | KInt32 => u <- LittleEndian.Uint32 bs ;; Some (to_int32 u)
  | KUint32 => LittleEndian.Uint32 bs
  | KInt64 => u <- LittleEndian.Uint64 bs ;; Some (to_int64 u)
  | KUint64 => LittleEndian.Uint64 bs
  | KFloat32 => LittleEndian.Uint32 bs
  | KFloat64 => LittleEndian.Uint64 bs
  end.

(** Modelled from the spec: [errors.Wrap] of package pkg/errors is not
    among the sources; by section 6 of the specification a wrapped error
    carries a descriptive context string plus the underlying cause. *)
Inductive Error : Type :=
| Wrap (cause : ioError) (text : String.string).

(** How a call ends: [nil], an error, or a run-time panic. *)
Inductive Outcome (E : Type) : Type :=
| Nil
| Err (e : E)
| Panicked.
Arguments Nil {E}.
Arguments Err {E} e.
Arguments Panicked {E}.

(** [binary.Read(buf, binary.LittleEndian, value)], fast path. *)
Definition Read (buf : list byte) (value : Slot) (h : Heap)
  : list byte * Heap * Outcome ioError :=
  let (k, p) := value in
  let n := intDataSize k in
  match ReadFull buf n with
  | (buf', inl err) => (buf', h, Err err)
  | (buf', inr bs) =>
      match decodeFast k bs with
      | Some v => (buf', store h p v, Nil)
      | None => (buf', h, Panicked)
      end
  end.

Fixpoint LeDecode_from (buf : list byte) (values : list Slot) (h : Heap)
  : Heap * Outcome Error :=
  match values with
  | [] => (h, Nil)
  | value :: rest =>
      match Read buf value h with
      | (buf', h', Nil) => LeDecode_from buf' rest h'
      | (_, h', Err err) => (h', Err (Wrap err "binary.Read failed"%string))
      | (_, h', Panicked) => (h', Panicked)
      end
  end.

Definition LeDecode (b : list byte) (values : list Slot) (h : Heap)
  : Heap * Outcome Error :=
  LeDecode_from b values h.

(** The number of bytes a list of destinations consumes. *)
Definition wireSize (values : list Slot) : nat :=
  list_sum (map (fun value => intDataSize (fst value)) values).

End Binary.

(** ** Typed cells and the values they stand for *)

Module Cell.
Import GoInt Binary.

(** The contents a cell of kind [k] can have: the values of the Go type,
    with a bool as 0 or 1 and a float as its bit pattern. *)
Definition holds (k : Kind) (v : Z) : Prop :=
  match k with
  | KBool => v = 0 \/ v = 1
  | KInt8 => in_signed 8 v
  | KUint8 => in_unsigned 8 v
  | KInt16 => in_signed 16 v
  | KUint16 => in_unsigned 16 v
  | KInt32 => in_signed 32 v
  | KUint32 | KFloat32 => in_unsigned 32 v
  | KInt64 => in_signed 64 v
  | KUint64 | KFloat64 => in_unsigned 64 v
  end.

(** The Go value of kind [k] whose cell content is [v], as [LeEncode]
    receives it. *)
Definition valueOf (k : Kind) (v : Z) : Value :=
  match k with
  | KBool => VBool (negb (v =? 0))
  | KInt8 => VInt8 v
  | KUint8 => VUint8 v
  | KInt16 => VInt16 v
  | KUint16 => VUint16 v
  | KInt32 => VInt32 v
  | KUint32 => VUint32 v
  | KInt64 => VInt64 v
  | KUint64 => VUint64 v
  | KFloat32 => VFloat32 v
  | KFloat64 => VFloat64 v
  end.

(** A field to transmit: its kind, the pointer it is decoded through and
    its content. *)
Definition Field : Type := (Kind * nat * Z)%type.

Definition fieldValue (f : Field) : Value :=
  let '(k, _, v) := f in valueOf k v.

Definition fieldSlot (f : Field) : Slot :=
  let '(k, p, _) := f in (k, p).

(** Writing the fields through their pointers, in order. *)
Definition storeAll (fields : list Field) (h : Heap) : Heap :=
  fold_left (fun h' (f : Field) => let '(_, p, v) := f in store h' p v)
    fields h.

End Cell.

(** ** Package hash *)

Module Hash.
Import GoInt.

(** One iteration of the loop of [RS] on [w]-bit unsigned integers, on the
    pair of [hash] and [a]. *)
Definition RS_step (w : Z) (st : Z * Z) (c : byte) : Z * Z :=
  let (hash, a) := st in
  let b := 378551 in
  (wrap w (wrap w (hash * a) + wrap w (byte.unsigned c)), wrap w (a * b)).

Definition RS (str : list byte) : Z :=
  fst (fold_left (RS_step 32) str (0, 63689)).

Definition RS64 (str : list byte) : Z :=
  fst (fold_left (RS_step 64) str (0, 63689)).

(** The low 32 bits of both components of a loop state. *)
Definition low32 (st : Z * Z) : Z * Z := (wrap 32 (fst st), wrap 32 (snd st)).

End Hash.

(** ** Package code *)

Module Code.

(** [localCode]; [detail] is an [interface{}]: [None] is [nil], and a value
    is held by the text [%v] prints for it. *)
Record localCode : Type := {
  code : Z;
  message : String.string;
  detail : option String.string
}.

Definition localCode_Code (c : localCode) : Z := code c.

Definition localCode_Message (c : localCode) : String.string := message c.

Definition localCode_Detail (c : localCode) : option String.string :=
  detail c.

(** [fmt.Sprintf("%d", n)] *)
Definition formatInt (n : Z) : String.string :=
  DecimalString.NilZero.string_of_int (Z.to_int n).

Definition localCode_String (c : localCode) : String.string :=
  match detail c with
  | Some d =>
      String.append (formatInt (code c))
        (String.append ":" (String.append (message c) (String.append " " d)))
  | None =>
      if String.eqb (message c) ""
      then formatInt (code c)
      else String.append (formatInt (code c))
             (String.append ":" (message c))
  end.

End Code.

(** ** Package reflection *)

Module Reflection.

(** [reflect.Kind] *)
Inductive Kind : Type :=
| Invalid | Bool | Int | Int8 | Int16 | Int32 | Int64
| Uint | Uint8 | Uint16 | Uint32 | Uint64 | Uintptr
| Float32 | Float64 | Complex64 | Complex128
| Array | Chan | Func | Interface | Map | Ptr | Slice | String | Struct
| UnsafePointer.

Definition isPtr (k : Kind) : bool :=
  match k with
  | Ptr => true
  | _ => false
  end.

(** A [reflect.Type] as far as [Kind()] and the [Elem()] of a pointer type
    show it: a pointer type with its element type, or a type of another
    kind.  The pointer chains are finite (a type such as [type P *P] is not
    among them). *)
Inductive Type_ : Type :=
| PtrTo (elem : Type_)
| OtherType (k : Kind) (notPtr : isPtr k = false).

Definition Type_Kind (t : Type_) : Kind :=
  match t with
  | PtrTo _ => Ptr
  | OtherType k _ => k
  end.

(** A [reflect.Value] in the same way: the zero Value (of kind [Invalid]), a
    pointer with the Value [Elem()] returns (the zero Value for a nil
    pointer), or a value of another kind with what it holds. *)
Inductive Value_ : Type :=
| ZeroValue
| PtrValue (elem : Value_)
| OtherValue (k : Kind) (notPtr : isPtr k = false) (holds : Z).

Definition Value_Kind (v : Value_) : Kind :=
  match v with
  | ZeroValue => Invalid
  | PtrValue _ => Ptr
  | OtherValue k _ _ => k
  end.

(** [TypeKind] and [ValueKind]; the fields [InputKind] and [OriginKind] of
    [TypeKind] are [TypeInputKind] and [TypeOriginKind] here. *)
Record TypeKind : Type := {
  InputType : option Type_;
  TypeInputKind : Kind;
  OriginType : option Type_;
  TypeOriginKind : Kind
}.

Record ValueKind : Type := {
  InputValue : Value_;
  InputKind : Kind;
  OriginValue : Value_;
  OriginKind : Kind
}.

(** The loop of [OriginTypeAndKind]: while the kind is [Ptr], go to the
    element type. *)
Fixpoint originType (t : Type_) : Type_ :=
  match t with
  | PtrTo elem => originType elem
  | OtherType _ _ => t
  end.

(** [OriginTypeAndKind(value)]; [None] is the nil [value], and [Some t] is
    a [value] that is the type [t] or a value of type [t]. *)
Definition OriginTypeAndKind (value : option Type_) : TypeKind :=
  match value with
  | None =>
      {| InputType := None; TypeInputKind := Invalid;
         OriginType := None; TypeOriginKind := Invalid |}
  | Some t =>
      {| InputType := Some t; TypeInputKind := Type_Kind t;
         OriginType := Some (originType t);
         TypeOriginKind := Type_Kind (originType t) |}
  end.

(** The loop of [OriginValueAndKind]. *)
Fixpoint originValue (v : Value_) : Value_ :=
  match v with
  | PtrValue elem => originValue elem
  | _ => v
  end.

(** [OriginValueAndKind(value)], on the [reflect.Value] that [value] is or
    that [reflect.ValueOf(value)] returns. *)
Definition OriginValueAndKind (v : Value_) : ValueKind :=
  {| InputValue := v; InputKind := Value_Kind v;
     OriginValue := originValue v;
     OriginKind := Value_Kind (originValue v) |}.

End Reflection.

Import GoInt Slice Binary.

(** * Properties *)

(** ** Integer conversions *)

Section Conversions.

Variable w : Z.
Hypothesis w_pos : 0 < w.

Lemma pow2_double : 2 ^ w = 2 * 2 ^ (w - 1).
Proof.
  replace w with (Z.succ (w - 1)) at 1 by lia.
  rewrite Z.pow_succ_r by lia. reflexivity.
Qed.

Lemma wrap_range x : 0 <= wrap w x < 2 ^ w.
Proof. unfold wrap. apply Z.mod_pos_bound. apply Z.pow_pos_nonneg; lia. Qed.

Lemma wrap_small x : in_unsigned w x -> wrap w x = x.
Proof. unfold in_unsigned, wrap. intros H. now apply Z.mod_small. Qed.

Lemma wrap_idem x : wrap w (wrap w x) = wrap w x.
Proof. apply wrap_small. apply wrap_range. Qed.

Lemma swrap_range x : in_signed w (swrap w x).
Proof.
  unfold in_signed, swrap. pose proof (wrap_range x) as Hr.
  pose proof pow2_double as Hd.
  destruct (Z.ltb_spec (wrap w x) (2 ^ (w - 1))); lia.
Qed.

(** [intN(uintN(x)) = x] on the values of the signed type. *)
Lemma swrap_wrap x : in_signed w x -> swrap w (wrap w x) = x.
Proof.
  unfold in_signed, swrap. intros Hx. rewrite wrap_idem.
  pose proof pow2_double as Hd. unfold wrap.
  destruct (Z.neg_nonneg_cases x) as [Hneg | Hnn].
  - assert (Hm : x mod 2 ^ w = x + 2 ^ w)
      by (symmetry; apply Z.mod_unique with (q := -1); lia).
    rewrite Hm.
    destruct (Z.ltb_spec (x + 2 ^ w) (2 ^ (w - 1))); lia.
  - rewrite Z.mod_small by lia.
    destruct (Z.ltb_spec x (2 ^ (w - 1))); lia.
Qed.

(** [intN] is the identity on the values of the signed type. *)
Lemma swrap_signed x : in_signed w x -> swrap w x = x.
Proof.
  intros Hx. rewrite <- (swrap_wrap x Hx) at 2.
  unfold swrap. now rewrite wrap_idem.
Qed.

(** A value below half the range is its own signed reading. *)
Lemma swrap_low x : 0 <= x < 2 ^ (w - 1) -> swrap w x = x.
Proof.
  intros Hx. pose proof pow2_double as Hd.
  unfold swrap. rewrite wrap_small by (unfold in_unsigned; lia).
  destruct (Z.ltb_spec x (2 ^ (w - 1))); lia.
Qed.

Lemma shl_byte b n :
  0 <= n -> n + 8 <= w ->
  shl w (byte.unsigned b) n = Z.shiftl (byte.unsigned b) n.
Proof.
  intros Hn Hw. unfold shl. apply wrap_small. unfold in_unsigned.
  pose proof (byte.unsigned_range b) as Hb.
  rewrite Z.shiftl_mul_pow2 by lia.
  assert (H2n : 0 < 2 ^ n) by (apply Z.pow_pos_nonneg; lia).
  assert (Hle : 2 ^ (n + 8) <= 2 ^ w) by (apply Z.pow_le_mono_r; lia).
  rewrite Z.pow_add_r in Hle by lia.
  split; [ apply Z.mul_nonneg_nonneg; lia | ].
  apply Z.lt_le_trans with (2 ^ n * 2 ^ 8); [ | lia ].
  rewrite (Z.mul_comm (2 ^ n)). apply Z.mul_lt_mono_pos_r; lia.
Qed.

End Conversions.

(** ** Little-endian reading and writing

    [PutUintN] on a fresh buffer and [UintN] are the splitting and combining
    of a number into little-endian bytes. *)

Section LittleEndianFacts.

Ltac shifts :=
  unfold shr; cbn [le_split];
  repeat rewrite Z.shiftr_shiftr by lia; cbn [Z.add Pos.add Pos.succ].

Lemma PutUint16_make v : LittleEndian.PutUint16 (make 2) v = le_split 2 v.
Proof. cbn [make repeat LittleEndian.PutUint16]. now shifts. Qed.

Lemma PutUint32_make v : LittleEndian.PutUint32 (make 4) v = le_split 4 v.
Proof. cbn [make repeat LittleEndian.PutUint32]. now shifts. Qed.

Lemma PutUint64_make v : LittleEndian.PutUint64 (make 8) v = le_split 8 v.
Proof. cbn [make repeat LittleEndian.PutUint64]. now shifts. Qed.

Ltac combine :=
  unfold le_combine;
  rewrite ?(shl_byte 16), ?(shl_byte 32), ?(shl_byte 64) by lia;
  rewrite Z.shiftl_0_l, Z.lor_0_r;
  repeat rewrite Z.shiftl_lor;
  repeat rewrite Z.shiftl_shiftl by lia;
  rewrite ?Z.lor_assoc;
  cbn [Z.add Pos.add Pos.succ]; reflexivity.

Lemma Uint16_combine b0 b1 rest :
  LittleEndian.Uint16 (b0 :: b1 :: rest) = Some (le_combine [b0; b1]).
Proof. cbn [LittleEndian.Uint16]. f_equal. combine. Qed.

Lemma Uint32_combine b0 b1 b2 b3 rest :
  LittleEndian.Uint32 (b0 :: b1 :: b2 :: b3 :: rest)
  = Some (le_combine [b0; b1; b2; b3]).
Proof. cbn [LittleEndian.Uint32]. f_equal. combine. Qed.

Lemma Uint64_combine b0 b1 b2 b3 b4 b5 b6 b7 rest :
  LittleEndian.Uint64 (b0 :: b1 :: b2 :: b3 :: b4 :: b5 :: b6 :: b7 :: rest)
  = Some (le_combine [b0; b1; b2; b3; b4; b5; b6; b7]).
Proof. cbn [LittleEndian.Uint64]. f_equal. combine. Qed.

End LittleEndianFacts.

(** ** Slices of zero bytes *)

Section SliceFacts.

Lemma make_length n : length (make n) = n.
Proof. apply repeat_length. Qed.

Lemma firstn_make n m : firstn n (make m) = make (Nat.min n m).
Proof.
  unfold make. revert m.
  induction n as [| n IH]; intros [| m]; cbn; try reflexivity.
  now rewrite IH.
Qed.

Lemma skipn_make n m : skipn n (make m) = make (m - n).
Proof.
  unfold make. revert m.
  induction n as [| n IH]; intros [| m]; cbn; try reflexivity.
  apply IH.
Qed.

(** Copying a shorter slice into a fresh one pads it with zero bytes. *)
Lemma copy_make (b : list byte) (n : nat) :
  (length b <= n)%nat -> copy (make n) b = b ++ make (n - length b).
Proof.
  intros Hle. unfold copy. rewrite make_length.
  rewrite Nat.min_r by assumption.
  now rewrite firstn_all, skipn_make.
Qed.

End SliceFacts.

(** ** LeFillUpSize *)

Section FillUp.

Variable b : list byte.
Variable l : nat.

Lemma LeFillUpSize_pad :
  (length b < l)%nat ->
  LeFillUpSize b (Z.of_nat l) = Some (b ++ make (l - length b)).
Proof.
  intros Hlt. unfold LeFillUpSize, len.
  destruct (Z.ltb_spec (Z.of_nat l) 0) as [Hneg | _]; [ lia | ].
  destruct (Z.geb_spec (Z.of_nat (length b)) (Z.of_nat l)) as [Hge | _];
    [ lia | ].
  rewrite Nat2Z.id, copy_make by lia. reflexivity.
Qed.

Lemma LeFillUpSize_truncate :
  (l <= length b)%nat ->
  LeFillUpSize b (Z.of_nat l) = Some (firstn l b).
Proof.
  intros Hle. unfold LeFillUpSize, len.
  destruct (Z.ltb_spec (Z.of_nat l) 0) as [Hneg | _]; [ lia | ].
  destruct (Z.geb_spec (Z.of_nat (length b)) (Z.of_nat l)) as [_ | Hlt];
    [ | lia ].
  now rewrite Nat2Z.id.
Qed.

(** Both cases at once: the first [l] bytes of [b] followed by zeros. *)
Lemma LeFillUpSize_normalize :
  LeFillUpSize b (Z.of_nat l) = Some (firstn l (b ++ make l)).
Proof.
  destruct (Nat.le_gt_cases l (length b)) as [Hle | Hlt].
  - rewrite LeFillUpSize_truncate by assumption.
    rewrite firstn_app. replace (l - length b)%nat with 0%nat by lia.
    cbn [firstn]. now rewrite app_nil_r.
  - rewrite LeFillUpSize_pad by assumption.
    rewrite firstn_app, firstn_all2 by lia.
    rewrite firstn_make. do 3 f_equal. lia.
Qed.

Lemma LeFillUpSize_length c :
  LeFillUpSize b (Z.of_nat l) = Some c -> length c = l.
Proof.
  rewrite LeFillUpSize_normalize. intros [= <-].
  rewrite length_firstn, length_app, make_length. lia.
Qed.

(** The little-endian number held by the normalised slice. *)
Lemma LeFillUpSize_combine c :
  LeFillUpSize b (Z.of_nat l) = Some c ->
  le_combine c = le_combine b mod 2 ^ (8 * Z.of_nat l).
Proof.
  rewrite LeFillUpSize_normalize. intros [= <-].
  rewrite le_combine_firstn. unfold make. now rewrite le_combine_app_0.
Qed.

End FillUp.

(** ** The value of each lenient decoder

    Each decoder of a multi-byte type returns the little-endian number held
    by the whole buffer, reduced modulo the width of the type. *)

Section DecoderValues.

Lemma Uint16_exact c :
  length c = 2%nat -> LittleEndian.Uint16 c = Some (le_combine c).
Proof.
  destruct c as [| c0 [| c1 [| c2 c]]]; try discriminate.
  intros _. apply Uint16_combine.
Qed.

Lemma Uint32_exact c :
  length c = 4%nat -> LittleEndian.Uint32 c = Some (le_combine c).
Proof.
  do 4 (destruct c as [| ? c]; try discriminate).
  destruct c; try discriminate.
  intros _. apply Uint32_combine.
Qed.

Lemma Uint64_exact c :
  length c = 8%nat -> LittleEndian.Uint64 c = Some (le_combine c).
Proof.
  do 8 (destruct c as [| ? c]; try discriminate).
  destruct c; try discriminate.
  intros _. apply Uint64_combine.
Qed.

Ltac decoder n exact_lemma :=
  let c := fresh "c" in
  let E := fresh "E" in
  change (Z.pos n) with (Z.of_nat (Pos.to_nat n));
  destruct (LeFillUpSize _ (Z.of_nat (Pos.to_nat n))) as [c |] eqn:E;
  [ cbn [bind];
    rewrite (exact_lemma c (LeFillUpSize_length _ _ _ E));
    rewrite (LeFillUpSize_combine _ _ _ E); reflexivity
  | rewrite LeFillUpSize_normalize in E; discriminate E ].

Variable b : list byte.

Lemma LeDecodeToUint16_value :
  LeDecodeToUint16 b = Some (le_combine b mod 2 ^ 16).
Proof. unfold LeDecodeToUint16. decoder 2%positive Uint16_exact. Qed.

Lemma LeDecodeToUint32_value :
  LeDecodeToUint32 b = Some (le_combine b mod 2 ^ 32).
Proof. unfold LeDecodeToUint32. decoder 4%positive Uint32_exact. Qed.

Lemma LeDecodeToUint64_value :
  LeDecodeToUint64 b = Some (le_combine b mod 2 ^ 64).
Proof. unfold LeDecodeToUint64. decoder 8%positive Uint64_exact. Qed.

Lemma LeDecodeToInt16_value :
  LeDecodeToInt16 b = Some (to_int16 (le_combine b mod 2 ^ 16)).
Proof. unfold LeDecodeToInt16. decoder 2%positive Uint16_exact. Qed.

Lemma LeDecodeToInt32_value :
  LeDecodeToInt32 b = Some (to_int32 (le_combine b mod 2 ^ 32)).
Proof. unfold LeDecodeToInt32. decoder 4%positive Uint32_exact. Qed.

Lemma LeDecodeToInt64_value :
  LeDecodeToInt64 b = Some (to_int64 (le_combine b mod 2 ^ 64)).
Proof. unfold LeDecodeToInt64. decoder 8%positive Uint64_exact. Qed.

Lemma LeDecodeToFloat32_value :
  LeDecodeToFloat32 b = Some (le_combine b mod 2 ^ 32).
Proof. unfold LeDecodeToFloat32. decoder 4%positive Uint32_exact. Qed.

Lemma LeDecodeToFloat64_value :
  LeDecodeToFloat64 b = Some (le_combine b mod 2 ^ 64).
Proof. unfold LeDecodeToFloat64. decoder 8%positive Uint64_exact. Qed.

Lemma LeDecodeToInt_value :
  LeDecodeToInt b = Some (to_int64 (le_combine b mod 2 ^ 64)).
Proof.
  unfold LeDecodeToInt. rewrite LeDecodeToInt64_value. cbn [bind].
  f_equal. apply (swrap_signed 64); [ lia | ].
  apply swrap_range. lia.
Qed.

End DecoderValues.

(** ** The RS hash *)

Section RSHash.
Import Hash.

Lemma wrap_32_64 x : wrap 32 (wrap 64 x) = wrap 32 x.
Proof.
  unfold wrap. apply Z.mod_mod_divide. exists (2 ^ 32). reflexivity.
Qed.

(** Sums and products of numbers that agree on their low 32 bits agree on
    their low 32 bits. *)
Lemma wrap_add_congr x x' y y' :
  wrap 32 x = wrap 32 x' -> wrap 32 y = wrap 32 y' ->
  wrap 32 (x + y) = wrap 32 (x' + y').
Proof.
  unfold wrap. intros Hx Hy.
  rewrite (Z.add_mod x), (Z.add_mod x') by lia. now rewrite Hx, Hy.
Qed.

Lemma wrap_mul_congr x x' y y' :
  wrap 32 x = wrap 32 x' -> wrap 32 y = wrap 32 y' ->
  wrap 32 (x * y) = wrap 32 (x' * y').
Proof.
  unfold wrap. intros Hx Hy.
  rewrite (Z.mul_mod x), (Z.mul_mod x') by lia. now rewrite Hx, Hy.
Qed.

Lemma wrap_32_idem x : wrap 32 (wrap 32 x) = wrap 32 x.
Proof. apply wrap_idem. lia. Qed.

(** One step on 32 bits only sees the low 32 bits of the state. *)
Lemma RS_step_low st c : RS_step 32 (low32 st) c = RS_step 32 st c.
Proof.
  destruct st as [hash a]. unfold low32, RS_step. cbn [fst snd]. f_equal.
  - apply wrap_add_congr; [ | reflexivity ].
    rewrite !wrap_32_idem. apply wrap_mul_congr; apply wrap_32_idem.
  - apply wrap_mul_congr; [ apply wrap_32_idem | reflexivity ].
Qed.

(** The 32-bit step is the reduction of the 64-bit step. *)
Lemma RS_step_32_64 st c : RS_step 32 st c = low32 (RS_step 64 st c).
Proof.
  destruct st as [hash a]. unfold low32, RS_step. cbn [fst snd].
  rewrite !wrap_32_64. f_equal.
  apply wrap_add_congr; now rewrite wrap_32_idem, wrap_32_64.
Qed.

Lemma RS_loop_32_64 str : forall st,
  fold_left (RS_step 32) str (low32 st)
  = low32 (fold_left (RS_step 64) str st).
Proof.
  induction str as [| c str IH]; intros st; cbn [fold_left].
  - reflexivity.
  - rewrite RS_step_low, RS_step_32_64. apply IH.
Qed.

End RSHash.

(** ** The fixed-width encoders *)

Section Encoders.

Variable v : Z.

Lemma LeEncodeUint16_split : LeEncodeUint16 v = le_split 2 v.
Proof. apply PutUint16_make. Qed.

Lemma LeEncodeUint32_split : LeEncodeUint32 v = le_split 4 v.
Proof. apply PutUint32_make. Qed.

Lemma LeEncodeUint64_split : LeEncodeUint64 v = le_split 8 v.
Proof. apply PutUint64_make. Qed.

Lemma LeEncodeInt16_split : LeEncodeInt16 v = le_split 2 (to_uint16 v).
Proof. apply PutUint16_make. Qed.

Lemma LeEncodeInt32_split : LeEncodeInt32 v = le_split 4 (to_uint32 v).
Proof. apply PutUint32_make. Qed.

Lemma LeEncodeInt64_split : LeEncodeInt64 v = le_split 8 (to_uint64 v).
Proof. apply PutUint64_make. Qed.

(** The adaptive sizers: which width is chosen. *)
Lemma LeEncodeUint_length :
  length (LeEncodeUint v) =
    if v <=? MaxUint8 then 1%nat
    else if v <=? MaxUint16 then 2%nat
    else if v <=? MaxUint32 then 4%nat
    else 8%nat.
Proof.
  unfold LeEncodeUint.
  destruct (v <=? MaxUint8); [ reflexivity | ].
  destruct (v <=? MaxUint16); [ reflexivity | ].
  destruct (v <=? MaxUint32); reflexivity.
Qed.

Lemma LeEncodeInt_length :
  length (LeEncodeInt v) =
    if v <=? MaxInt8 then 1%nat
    else if v <=? MaxInt16 then 2%nat
    else if v <=? MaxInt32 then 4%nat
    else 8%nat.
Proof.
  unfold LeEncodeInt.
  destruct (v <=? MaxInt8); [ reflexivity | ].
  destruct (v <=? MaxInt16); [ reflexivity | ].
  destruct (v <=? MaxInt32); reflexivity.
Qed.

End Encoders.

(** ** Decoding what the fixed-width encoders produce *)

Section RoundTrip.

Variable v : Z.

Ltac roundtrip value_lemma split_lemma :=
  rewrite value_lemma, split_lemma, le_combine_split;
  cbn [Z.of_nat Pos.of_succ_nat Pos.succ Z.mul Pos.mul].

Lemma roundtrip_uint8 :
  in_unsigned 8 v -> LeDecodeToUint8 (LeEncodeUint8 v) = Some v.
Proof.
  intros Hv. unfold LeDecodeToUint8, LeEncodeUint8. cbn [index0 hd_error bind].
  rewrite byte.unsigned_of_Z. f_equal. now apply (wrap_small 8).
Qed.

Lemma roundtrip_int8 :
  in_signed 8 v -> LeDecodeToInt8 (LeEncodeInt8 v) = Some v.
Proof.
  intros Hv. unfold LeDecodeToInt8, LeEncodeInt8. cbn [index0 hd_error bind].
  rewrite byte.unsigned_of_Z. f_equal. unfold to_int8, to_uint8.
  change (byte.wrap (wrap 8 v)) with (wrap 8 (wrap 8 v)).
  rewrite wrap_idem by lia. apply swrap_wrap; [ lia | assumption ].
Qed.

Lemma roundtrip_uint16 :
  in_unsigned 16 v -> LeDecodeToUint16 (LeEncodeUint16 v) = Some v.
Proof.
  intros Hv. roundtrip LeDecodeToUint16_value LeEncodeUint16_split.
  f_equal. rewrite Z.mod_mod by lia. now apply (wrap_small 16).
Qed.

Lemma roundtrip_uint32 :
  in_unsigned 32 v -> LeDecodeToUint32 (LeEncodeUint32 v) = Some v.
Proof.
  intros Hv. roundtrip LeDecodeToUint32_value LeEncodeUint32_split.
  f_equal. rewrite Z.mod_mod by lia. now apply (wrap_small 32).
Qed.

Lemma roundtrip_uint64 :
  in_unsigned 64 v -> LeDecodeToUint64 (LeEncodeUint64 v) = Some v.
Proof.
  intros Hv. roundtrip LeDecodeToUint64_value LeEncodeUint64_split.
  f_equal. rewrite Z.mod_mod by lia. now apply (wrap_small 64).
Qed.

Lemma roundtrip_int16 :
  in_signed 16 v -> LeDecodeToInt16 (LeEncodeInt16 v) = Some v.
Proof.
  intros Hv. roundtrip LeDecodeToInt16_value LeEncodeInt16_split.
  f_equal. unfold to_uint16, to_int16. fold (wrap 16 (wrap 16 v)).
  fold (wrap 16 (wrap 16 (wrap 16 v))). rewrite !wrap_idem by lia.
  apply swrap_wrap; [ lia | assumption ].
Qed.

Lemma roundtrip_int32 :
  in_signed 32 v -> LeDecodeToInt32 (LeEncodeInt32 v) = Some v.
Proof.
  intros Hv. roundtrip LeDecodeToInt32_value LeEncodeInt32_split.
  f_equal. unfold to_uint32, to_int32. fold (wrap 32 (wrap 32 v)).
  fold (wrap 32 (wrap 32 (wrap 32 v))). rewrite !wrap_idem by lia.
  apply swrap_wrap; [ lia | assumption ].
Qed.

Lemma roundtrip_int64 :
  in_signed 64 v -> LeDecodeToInt64 (LeEncodeInt64 v) = Some v.
Proof.
  intros Hv. roundtrip LeDecodeToInt64_value LeEncodeInt64_split.
  f_equal. unfold to_uint64, to_int64. fold (wrap 64 (wrap 64 v)).
  fold (wrap 64 (wrap 64 (wrap 64 v))). rewrite !wrap_idem by lia.
  apply swrap_wrap; [ lia | assumption ].
Qed.

End RoundTrip.

(** ** The strict decoder *)

Section StrictDecoder.

(** [decodeFast] never panics on a slice of the size of its kind. *)
Lemma decodeFast_total k bs :
  length bs = intDataSize k -> exists v, decodeFast k bs = Some v.
Proof.
  destruct k; cbn [intDataSize decodeFast]; intros Hlen;
    rewrite ?(Uint16_exact bs Hlen), ?(Uint32_exact bs Hlen),
      ?(Uint64_exact bs Hlen); cbn [bind]; eauto;
    destruct bs as [| b0 bs]; try discriminate Hlen;
    cbn [index0 hd_error bind]; eauto.
Qed.

(** A destination whose bytes are there is filled, and the cursor moves
    past them. *)
Lemma Read_enough buf k p h :
  (intDataSize k <= length buf)%nat ->
  exists v,
    Read buf (k, p) h = (skipn (intDataSize k) buf, store h p v, Nil).
Proof.
  intros Hle. unfold Read, ReadFull.
  destruct (Nat.leb_spec (intDataSize k) (length buf)) as [_ | Hgt];
    [ | lia ].
  destruct (decodeFast_total k (firstn (intDataSize k) buf)) as [v Hv].
  - rewrite length_firstn. lia.
  - exists v. now rewrite Hv.
Qed.

(** A destination whose bytes are not all there is left as it is. *)
Lemma Read_short buf k p h :
  (length buf < intDataSize k)%nat ->
  exists buf',
    Read buf (k, p) h
    = (buf', h, Err (if (length buf =? 0)%nat then EOF else ErrUnexpectedEOF)).
Proof.
  intros Hlt. unfold Read, ReadFull.
  destruct (Nat.leb_spec (intDataSize k) (length buf)) as [Hle | _];
    [ lia | ].
  destruct buf; cbn [length Nat.eqb]; eauto.
Qed.

Lemma wireSize_cons k p rest :
  wireSize ((k, p) :: rest) = (intDataSize k + wireSize rest)%nat.
Proof. reflexivity. Qed.

(** With enough bytes for every destination the decoder returns [nil]. *)
Lemma LeDecode_enough values : forall buf h,
  (wireSize values <= length buf)%nat ->
  exists h', LeDecode_from buf values h = (h', Nil).
Proof.
  induction values as [| [k p] rest IH]; intros buf h Hle.
  - exists h. reflexivity.
  - rewrite wireSize_cons in Hle.
    destruct (Read_enough buf k p h) as [v Hv]; [ lia | ].
    cbn [LeDecode_from]. rewrite Hv.
    apply IH. rewrite length_skipn. lia.
Qed.

End StrictDecoder.

(** * The claims of the specification *)

(** ** Absence sentinel *)

Lemma LeEncode_from_nil pre post : forall buf,
  Forall (fun value => value <> VNil) pre ->
  LeEncode_from buf (pre ++ VNil :: post)
  = buf ++ concat (map encodeValue pre).
Proof.
  induction pre as [| value pre IH]; intros buf Hpre.
  - cbn. now rewrite app_nil_r.
  - inversion Hpre as [| ? ? Hvalue Hrest]; subst.
    cbn [app map concat].
    destruct value; try congruence;
      cbn [LeEncode_from]; rewrite IH by assumption; now rewrite app_assoc.
Qed.

(** C4. When the list of values holds [nil] at position [k] (the values
    before it, [pre], are not [nil]), [LeEncode] returns exactly the
    encodings of the values before [k], one after the other; the values
    after [k] contribute nothing.  In particular
    [LeEncode(uint32(7), nil, uint32(9))] is the four bytes [07 00 00 00]. *)
Theorem LeEncode_stops_at_nil :
  (forall pre post,
     Forall (fun value => value <> VNil) pre ->
     LeEncode (pre ++ VNil :: post) = concat (map encodeValue pre))
  /\ LeEncode [VUint32 7; VNil; VUint32 9]
     = [Byte.x07; Byte.x00; Byte.x00; Byte.x00].
Proof.
  split.
  - intros pre post Hpre. unfold LeEncode.
    now rewrite LeEncode_from_nil.
  - reflexivity.
Qed.

Lemma LeEncode_stops_at_nil_witness :
  Forall (fun value => value <> VNil) [VUint16 258; VBool true]
  /\ LeEncode ([VUint16 258; VBool true] ++ VNil :: [VUint8 9])
     = [Byte.x02; Byte.x01; Byte.x01].
Proof.
  assert (H : Forall (fun value => value <> VNil) [VUint16 258; VBool true])
    by (repeat constructor; discriminate).
  split; [ exact H | ].
  exact (proj1 LeEncode_stops_at_nil [VUint16 258; VBool true] [VUint8 9] H).
Defined.

(** ** Length normalisation *)

(** C6. For a requested length [N >= 0], [LeEncodeByLength] returns a slice
    of exactly [N] bytes: the first [N] bytes of [LeEncode values] when that
    is longer, and [LeEncode values] followed by zero bytes when it is
    shorter. *)
Theorem LeEncodeByLength_exact (N : Z) (values : list Value) :
  0 <= N ->
  exists r,
    LeEncodeByLength N values = Some r
    /\ len r = N
    /\ (len (LeEncode values) > N ->
        r = firstn (Z.to_nat N) (LeEncode values))
    /\ (len (LeEncode values) < N ->
        r = LeEncode values
              ++ repeat Byte.x00 (Z.to_nat (N - len (LeEncode values))))
    /\ (len (LeEncode values) = N -> r = LeEncode values).
Proof.
  intros HN. unfold LeEncodeByLength.
  set (b := LeEncode values). unfold len.
  destruct (Z.ltb_spec (Z.of_nat (length b)) N) as [Hlt | Hge].
  - eexists. split; [ reflexivity | ].
    rewrite length_app, make_length.
    repeat split; intros; lia || reflexivity.
  - destruct (Z.gtb_spec (Z.of_nat (length b)) N) as [Hgt | Hle].
    + destruct (Z.ltb_spec N 0) as [Hneg | _]; [ lia | ].
      eexists. split; [ reflexivity | ].
      rewrite length_firstn.
      repeat split; intros; lia || reflexivity.
    + eexists. split; [ reflexivity | ].
      repeat split; intros; lia || reflexivity.
Qed.

Lemma LeEncodeByLength_exact_witness :
  0 <= 6
  /\ exists r,
       LeEncodeByLength 6 [VUint32 7] = Some r
       /\ len r = 6
       /\ (len (LeEncode [VUint32 7]) > 6 ->
           r = firstn (Z.to_nat 6) (LeEncode [VUint32 7]))
       /\ (len (LeEncode [VUint32 7]) < 6 ->
           r = LeEncode [VUint32 7]
                 ++ repeat Byte.x00
                      (Z.to_nat (6 - len (LeEncode [VUint32 7]))))
       /\ (len (LeEncode [VUint32 7]) = 6 -> r = LeEncode [VUint32 7]).
Proof.
  split; [ lia | ].
  apply (LeEncodeByLength_exact 6 [VUint32 7]). lia.
Defined.

(** ** Adaptive widths *)

(** C8. The number of bytes [LeEncodeUint] produces does not decrease when
    the value increases, and the comparison with each width's maximum is
    closed: a value takes one byte exactly up to 255, two bytes exactly from
    256 to 65535, four bytes exactly from 65536 to 4294967295 and eight bytes
    above.  In particular 255, 65535 and 4294967295 still take 1, 2 and 4
    bytes. *)
Theorem LeEncodeUint_width_monotone :
  (forall v1 v2,
     in_unsigned 64 v1 -> in_unsigned 64 v2 -> v1 < v2 ->
     (length (LeEncodeUint v1) <= length (LeEncodeUint v2))%nat)
  /\ length (LeEncodeUint 255) = 1%nat
  /\ length (LeEncodeUint 65535) = 2%nat
  /\ length (LeEncodeUint 4294967295) = 4%nat
  /\ length (LeEncodeUint (2 ^ 64 - 1)) = 8%nat
  /\ (forall v,
        (length (LeEncodeUint v) = 1%nat <-> v <= MaxUint8)
        /\ (length (LeEncodeUint v) = 2%nat <-> MaxUint8 < v <= MaxUint16)
        /\ (length (LeEncodeUint v) = 4%nat <-> MaxUint16 < v <= MaxUint32)
        /\ (length (LeEncodeUint v) = 8%nat <-> MaxUint32 < v)).
Proof.
  split; [ | repeat (split; [ reflexivity | ]) ].
  - intros v1 v2 _ _ Hlt. rewrite !LeEncodeUint_length.
    unfold MaxUint8, MaxUint16, MaxUint32.
    repeat match goal with
           | |- context [?x <=? ?y] => destruct (Z.leb_spec x y)
           end; lia.
  - intros v. rewrite LeEncodeUint_length.
    unfold MaxUint8, MaxUint16, MaxUint32.
    repeat match goal with
           | |- context [?x <=? ?y] => destruct (Z.leb_spec x y)
           end;
      repeat split; intros; try lia; try discriminate; reflexivity.
Qed.

Lemma LeEncodeUint_width_monotone_witness :
  in_unsigned 64 255 /\ in_unsigned 64 256 /\ 255 < 256
  /\ (length (LeEncodeUint 255) <= length (LeEncodeUint 256))%nat.
Proof.
  assert (H1 : in_unsigned 64 255) by (unfold in_unsigned; lia).
  assert (H2 : in_unsigned 64 256) by (unfold in_unsigned; lia).
  assert (H3 : 255 < 256) by lia.
  repeat split; try apply H1; try apply H2; try lia.
  exact (proj1 LeEncodeUint_width_monotone 255 256 H1 H2 H3).
Defined.

(** ** RS and RS64 *)

(** C10. [RS(str)] is the low 32 bits of [RS64(str)], for every [str]. *)
Theorem RS_low_bits_of_RS64 (str : list byte) :
  Hash.RS str = Hash.RS64 str mod 2 ^ 32.
Proof.
  unfold Hash.RS, Hash.RS64.
  change (0, 63689) with (Hash.low32 (0, 63689)) at 1.
  rewrite RS_loop_32_64. reflexivity.
Qed.

(** ** Round trip of the fixed-width integers *)

(** C7. For each of int8, uint8, int16, uint16, int32, uint32, int64 and
    uint64, decoding the encoding of a value of the type returns the
    value. *)
Theorem fixed_width_roundtrip (v : Z) :
  (in_signed 8 v -> LeDecodeToInt8 (LeEncodeInt8 v) = Some v)
  /\ (in_unsigned 8 v -> LeDecodeToUint8 (LeEncodeUint8 v) = Some v)
  /\ (in_signed 16 v -> LeDecodeToInt16 (LeEncodeInt16 v) = Some v)
  /\ (in_unsigned 16 v -> LeDecodeToUint16 (LeEncodeUint16 v) = Some v)
  /\ (in_signed 32 v -> LeDecodeToInt32 (LeEncodeInt32 v) = Some v)
  /\ (in_unsigned 32 v -> LeDecodeToUint32 (LeEncodeUint32 v) = Some v)
  /\ (in_signed 64 v -> LeDecodeToInt64 (LeEncodeInt64 v) = Some v)
  /\ (in_unsigned 64 v -> LeDecodeToUint64 (LeEncodeUint64 v) = Some v).
Proof.
  repeat apply conj.
  - apply roundtrip_int8.
  - apply roundtrip_uint8.
  - apply roundtrip_int16.
  - apply roundtrip_uint16.
  - apply roundtrip_int32.
  - apply roundtrip_uint32.
  - apply roundtrip_int64.
  - apply roundtrip_uint64.
Qed.

Lemma fixed_width_roundtrip_witness :
  (in_signed 8 (-100) /\ LeDecodeToInt8 (LeEncodeInt8 (-100)) = Some (-100))
  /\ (in_unsigned 8 100
      /\ LeDecodeToUint8 (LeEncodeUint8 100) = Some 100)
  /\ (in_signed 16 (-100)
      /\ LeDecodeToInt16 (LeEncodeInt16 (-100)) = Some (-100))
  /\ (in_unsigned 16 100
      /\ LeDecodeToUint16 (LeEncodeUint16 100) = Some 100)
  /\ (in_signed 32 (-100)
      /\ LeDecodeToInt32 (LeEncodeInt32 (-100)) = Some (-100))
  /\ (in_unsigned 32 100
      /\ LeDecodeToUint32 (LeEncodeUint32 100) = Some 100)
  /\ (in_signed 64 (-100)
      /\ LeDecodeToInt64 (LeEncodeInt64 (-100)) = Some (-100))
  /\ (in_unsigned 64 100
      /\ LeDecodeToUint64 (LeEncodeUint64 100) = Some 100).
Proof.
  assert (S8 : in_signed 8 (-100)) by (unfold in_signed; lia).
  assert (S16 : in_signed 16 (-100)) by (unfold in_signed; lia).
  assert (S32 : in_signed 32 (-100)) by (unfold in_signed; lia).
  assert (S64 : in_signed 64 (-100)) by (unfold in_signed; lia).
  assert (U8 : in_unsigned 8 100) by (unfold in_unsigned; lia).
  assert (U16 : in_unsigned 16 100) by (unfold in_unsigned; lia).
  assert (U32 : in_unsigned 32 100) by (unfold in_unsigned; lia).
  assert (U64 : in_unsigned 64 100) by (unfold in_unsigned; lia).
  pose proof (fixed_width_roundtrip (-100)) as
    (N8 & _ & N16 & _ & N32 & _ & N64 & _).
  pose proof (fixed_width_roundtrip 100) as
    (_ & P8 & _ & P16 & _ & P32 & _ & P64).
  exact (conj (conj S8 (N8 S8))
        (conj (conj U8 (P8 U8))
        (conj (conj S16 (N16 S16))
        (conj (conj U16 (P16 U16))
        (conj (conj S32 (N32 S32))
        (conj (conj U32 (P32 U32))
        (conj (conj S64 (N64 S64))
              (conj U64 (P64 U64))))))))).
Defined.

(** ** Lenient decoding *)

(** A buffer of fewer than eight bytes holds a number below [2^56]. *)
Lemma le_combine_short b :
  (length b < 8)%nat -> 0 <= le_combine b < 2 ^ 56.
Proof.
  intros Hlen. pose proof (le_combine_bound b) as [Hlo Hhi].
  split; [ assumption | ].
  apply Z.lt_le_trans with (2 ^ (8 * Z.of_nat (length b))); [ assumption | ].
  apply Z.pow_le_mono_r; lia.
Qed.

Lemma LeDecodeToInt64_short b :
  (length b < 8)%nat -> LeDecodeToInt64 b = Some (le_combine b).
Proof.
  intros Hlen. pose proof (le_combine_short b Hlen) as Hb.
  rewrite LeDecodeToInt64_value. f_equal.
  rewrite Z.mod_small by lia. apply (swrap_low 64); lia.
Qed.

(** C9. On a buffer of fewer than eight bytes [LeDecodeToInt64] and
    [LeDecodeToInt] return a non-negative number; so a negative [int] that
    [LeEncodeInt] encodes in fewer than eight bytes is not what
    [LeDecodeToInt] reads back. *)
Theorem lenient_signed_decode_zero_extends :
  (forall b, (length b < 8)%nat ->
     (exists v, LeDecodeToInt64 b = Some v /\ 0 <= v)
     /\ (exists v, LeDecodeToInt b = Some v /\ 0 <= v))
  /\ (forall i, i < 0 -> (length (LeEncodeInt i) < 8)%nat ->
        exists v, LeDecodeToInt (LeEncodeInt i) = Some v /\ 0 <= v /\ v <> i).
Proof.
  assert (Hint : forall b, (length b < 8)%nat ->
            LeDecodeToInt b = Some (le_combine b)).
  { intros b Hlen. pose proof (le_combine_short b Hlen) as Hb.
    rewrite LeDecodeToInt_value. f_equal.
    rewrite Z.mod_small by lia. apply (swrap_low 64); lia. }
  split.
  - intros b Hlen. pose proof (le_combine_short b Hlen) as Hb. split.
    + exists (le_combine b). split; [ now apply LeDecodeToInt64_short | lia ].
    + exists (le_combine b). split; [ now apply Hint | lia ].
  - intros i Hneg Hlen.
    pose proof (le_combine_short _ Hlen) as Hb.
    exists (le_combine (LeEncodeInt i)).
    split; [ now apply Hint | lia ].
Qed.

Lemma lenient_signed_decode_zero_extends_witness :
  ((length [Byte.xff; Byte.xff] < 8)%nat
   /\ (exists v, LeDecodeToInt64 [Byte.xff; Byte.xff] = Some v /\ 0 <= v)
   /\ (exists v, LeDecodeToInt [Byte.xff; Byte.xff] = Some v /\ 0 <= v))
  /\ (-5 < 0 /\ (length (LeEncodeInt (-5)) < 8)%nat
      /\ exists v,
           LeDecodeToInt (LeEncodeInt (-5)) = Some v /\ 0 <= v /\ v <> -5).
Proof.
  assert (H1 : (length [Byte.xff; Byte.xff] < 8)%nat) by (cbn; lia).
  assert (H2 : -5 < 0) by lia.
  assert (H3 : (length (LeEncodeInt (-5)) < 8)%nat) by (cbn; lia).
  destruct lenient_signed_decode_zero_extends as [Hb Hi].
  split.
  - split; [ exact H1 | exact (Hb _ H1) ].
  - split; [ exact H2 | split; [ exact H3 | exact (Hi _ H2 H3) ] ].
Defined.

Lemma pads_and_truncates_intro n decode read :
  (forall b, decode b = Some (read (le_combine b mod 2 ^ (8 * Z.of_nat n)))) ->
  pads_and_truncates n decode read.
Proof.
  intros Hdecode b. rewrite Hdecode. split; intros Hlen.
  - do 2 f_equal.
    rewrite <- (LeFillUpSize_combine b n (b ++ make (n - length b))).
    + reflexivity.
    + now apply LeFillUpSize_pad.
  - do 2 f_equal.
    rewrite <- (LeFillUpSize_combine b n (firstn n b)).
    + reflexivity.
    + now apply LeFillUpSize_truncate.
Qed.

(** [LeFillUpSize] extends a shorter buffer with zero bytes and cuts a
    longer one; each decoder of a 16-, 32- or 64-bit type reads the
    little-endian number of the buffer so normalised.  In particular
    [LeDecodeToUint16] is 5 on [05] and on [05 00 ff]. *)
Theorem lenient_decode_pads_and_truncates :
  (forall b n, (length b < n)%nat ->
     LeFillUpSize b (Z.of_nat n) = Some (b ++ repeat Byte.x00 (n - length b)))
  /\ (forall b n, (n <= length b)%nat ->
        LeFillUpSize b (Z.of_nat n) = Some (firstn n b))
  /\ pads_and_truncates 2 LeDecodeToUint16 (fun u => u)
  /\ pads_and_truncates 2 LeDecodeToInt16 to_int16
  /\ pads_and_truncates 4 LeDecodeToUint32 (fun u => u)
  /\ pads_and_truncates 4 LeDecodeToInt32 to_int32
  /\ pads_and_truncates 8 LeDecodeToUint64 (fun u => u)
  /\ pads_and_truncates 8 LeDecodeToInt64 to_int64
  /\ pads_and_truncates 4 LeDecodeToFloat32 (fun u => u)
  /\ pads_and_truncates 8 LeDecodeToFloat64 (fun u => u)
  /\ LeDecodeToUint16 [Byte.x05] = Some 5
  /\ LeDecodeToUint16 [Byte.x05; Byte.x00; Byte.xff] = Some 5.
Proof.
  split; [ exact LeFillUpSize_pad | ].
  split; [ exact LeFillUpSize_truncate | ].
  repeat apply conj; try reflexivity;
    apply pads_and_truncates_intro; intros b.
  - apply LeDecodeToUint16_value.
  - apply LeDecodeToInt16_value.
  - apply LeDecodeToUint32_value.
  - apply LeDecodeToInt32_value.
  - apply LeDecodeToUint64_value.
  - apply LeDecodeToInt64_value.
  - apply LeDecodeToFloat32_value.
  - apply LeDecodeToFloat64_value.
Qed.

Lemma lenient_decode_pads_and_truncates_witness :
  ((length [Byte.x05] < 2)%nat
   /\ LeFillUpSize [Byte.x05] 2 = Some [Byte.x05; Byte.x00]
   /\ LeDecodeToUint16 [Byte.x05]
      = Some (le_combine ([Byte.x05] ++ make 1)))
  /\ ((2 <= length [Byte.x05; Byte.x00; Byte.xff])%nat
      /\ LeFillUpSize [Byte.x05; Byte.x00; Byte.xff] 2
         = Some [Byte.x05; Byte.x00]
      /\ LeDecodeToUint16 [Byte.x05; Byte.x00; Byte.xff]
         = Some (le_combine [Byte.x05; Byte.x00])).
Proof.
  assert (H1 : (length [Byte.x05] < 2)%nat) by (cbn; lia).
  assert (H2 : (2 <= length [Byte.x05; Byte.x00; Byte.xff])%nat)
    by (cbn; lia).
  destruct lenient_decode_pads_and_truncates as (Hpad & Hcut & H16 & _).
  split.
  - split; [ exact H1 | ].
    split; [ exact (Hpad [Byte.x05] 2%nat H1) | ].
    exact (proj1 (H16 [Byte.x05]) H1).
  - split; [ exact H2 | ].
    split; [ exact (Hcut [Byte.x05; Byte.x00; Byte.xff] 2%nat H2) | ].
    exact (proj2 (H16 [Byte.x05; Byte.x00; Byte.xff]) H2).
Defined.

(** C5 fails for the two 8-bit decoders.  Their width is one byte, and the
    only shorter buffer is the empty one: padded with a zero byte it would
    read as 0, but [LeDecodeToInt8] and [LeDecodeToUint8] index [b[0]] without
    [LeFillUpSize] and panic.  So neither of them pads and truncates, while
    the decoders of the wider types do. *)
Theorem LeDecodeTo8_does_not_pad :
  LeDecodeToUint8 [] = None
  /\ LeDecodeToUint8 ([] ++ make 1) = Some 0
  /\ LeDecodeToInt8 [] = None
  /\ LeDecodeToInt8 ([] ++ make 1) = Some 0
  /\ ~ pads_and_truncates 1 LeDecodeToUint8 (fun u => u)
  /\ ~ pads_and_truncates 1 LeDecodeToInt8 to_int8
  /\ pads_and_truncates 2 LeDecodeToUint16 (fun u => u)
  /\ pads_and_truncates 2 LeDecodeToInt16 to_int16.
Proof.
  repeat apply conj; try reflexivity.
  - intros Hpad. destruct (Hpad []) as [Hshort _].
    specialize (Hshort ltac:(cbn; lia)). discriminate Hshort.
  - intros Hpad. destruct (Hpad []) as [Hshort _].
    specialize (Hshort ltac:(cbn; lia)). discriminate Hshort.
  - apply pads_and_truncates_intro. intros b. apply LeDecodeToUint16_value.
  - apply pads_and_truncates_intro. intros b. apply LeDecodeToInt16_value.
Qed.

(** ** Strict decoding *)

(** Two 4-byte destinations and a 5-byte buffer: the decoder fails, after it
    has written the first destination. *)
Lemma LeDecode_5_bytes_2_slots :
  LeDecode [Byte.x01; Byte.x00; Byte.x00; Byte.x00; Byte.x02]
           [(KUint32, 0%nat); (KUint32, 1%nat)] [0; 0]
  = ([1; 0], Err (Wrap ErrUnexpectedEOF "binary.Read failed"%string)).
Proof. reflexivity. Qed.

(** C3, as stated, fails: it is not so that a failing [LeDecode] leaves every
    destination as it was.  On the 5-byte buffer [01 00 00 00 02] and two
    uint32 destinations holding 0, it fails with the first destination set
    to 1. *)
Lemma LeDecode_populates_before_failure :
  ~ (forall b values h h' e,
       LeDecode b values h = (h', Err e) -> h' = h).
Proof.
  intros Hclaim.
  pose proof (Hclaim _ _ _ _ _ LeDecode_5_bytes_2_slots) as Heq.
  discriminate Heq.
Qed.

(** C3, amended.  When the buffer is shorter than the destinations need,
    [LeDecode] returns the error "binary.Read failed" wrapping the end-of-input
    error of the first destination [k] whose bytes are not all there; the
    memory is then what decoding the destinations before [k] leaves: neither
    destination [k] nor a later one is written. *)
Theorem LeDecode_short_buffer (values : list Slot) :
  forall (b : list byte) (h : Heap),
    (length b < wireSize values)%nat ->
    exists k cause hk,
      (k < length values)%nat
      /\ (wireSize (firstn k values) <= length b
          < wireSize (firstn (S k) values))%nat
      /\ cause = (if (length b =? wireSize (firstn k values))%nat
                  then EOF else ErrUnexpectedEOF)
      /\ LeDecode b (firstn k values) h = (hk, Nil)
      /\ LeDecode b values h
         = (hk, Err (Wrap cause "binary.Read failed"%string)).
Proof.
  unfold LeDecode.
  induction values as [| [k p] rest IH]; intros b h Hshort.
  - cbn in Hshort. lia.
  - rewrite wireSize_cons in Hshort.
    destruct (Nat.le_gt_cases (intDataSize k) (length b)) as [Hle | Hgt].
    + destruct (Read_enough b k p h Hle) as [v Hv].
      destruct (IH (skipn (intDataSize k) b) (store h p v))
        as (k' & cause & hk & Hk & Hsize & Hcause & Hpre & Hall).
      { rewrite length_skipn. lia. }
      rewrite length_skipn in Hsize, Hcause.
      exists (S k'), cause, hk.
      rewrite !firstn_cons, !wireSize_cons.
      cbn [length LeDecode_from]. rewrite Hv.
      repeat apply conj; try assumption; try lia.
      rewrite Hcause.
      destruct (Nat.eqb_spec (length b - intDataSize k)
                  (wireSize (firstn k' rest)));
        destruct (Nat.eqb_spec (length b)
                    (intDataSize k + wireSize (firstn k' rest)));
        reflexivity || lia.
    + destruct (Read_short b k p h Hgt) as [buf' Hr].
      exists 0%nat, (if (length b =? 0)%nat then EOF else ErrUnexpectedEOF), h.
      cbn [firstn]. rewrite wireSize_cons.
      cbn [length LeDecode_from]. rewrite Hr.
      repeat apply conj; try reflexivity; cbn; lia.
Qed.

Lemma LeDecode_short_buffer_witness :
  (length [Byte.x01; Byte.x00; Byte.x00; Byte.x00; Byte.x02]
   < wireSize [(KUint32, 0%nat); (KUint32, 1%nat)])%nat
  /\ exists k cause hk,
       (k < 2)%nat
       /\ LeDecode [Byte.x01; Byte.x00; Byte.x00; Byte.x00; Byte.x02]
            [(KUint32, 0%nat); (KUint32, 1%nat)] [0; 0]
          = (hk, Err (Wrap cause "binary.Read failed"%string)).
Proof.
  assert (H : (length [Byte.x01; Byte.x00; Byte.x00; Byte.x00; Byte.x02]
               < wireSize [(KUint32, 0%nat); (KUint32, 1%nat)])%nat)
    by (cbn; lia).
  split; [ exact H | ].
  destruct (LeDecode_short_buffer [(KUint32, 0%nat); (KUint32, 1%nat)]
              [Byte.x01; Byte.x00; Byte.x00; Byte.x00; Byte.x02] [0; 0] H)
    as (k & cause & hk & Hk & _ & _ & _ & Hall).
  exists k, cause, hk. split; [ exact Hk | exact Hall ].
Defined.

(** ** The adaptive sizer on negative values *)

(** C1 fails below -128: [LeEncodeInt] only compares with the maxima, so the
    int -200 is sent to [LeEncodeInt8]; the single byte produced is [38], which
    reads back as 56.  The 8-bit range does not hold -200, the 16-bit range
    does. *)
Theorem LeEncodeInt_narrows_below_MinInt8 :
  in_signed 64 (-200)
  /\ LeEncodeInt (-200) = [Byte.x38]
  /\ LeDecodeToInt8 (LeEncodeInt (-200)) = Some 56
  /\ ~ in_signed 8 (-200)
  /\ in_signed 16 (-200).
Proof.
  unfold in_signed. repeat apply conj; try reflexivity; lia.
Qed.

(** From -128 upwards the sizer is lossless: decoding at the width it chose
    returns the value. *)
Lemma LeEncodeInt_lossless_from_MinInt8 (v : Z) :
  in_signed 64 v -> -128 <= v ->
  (v <= MaxInt8 -> LeDecodeToInt8 (LeEncodeInt v) = Some v)
  /\ (MaxInt8 < v <= MaxInt16 -> LeDecodeToInt16 (LeEncodeInt v) = Some v)
  /\ (MaxInt16 < v <= MaxInt32 -> LeDecodeToInt32 (LeEncodeInt v) = Some v)
  /\ (MaxInt32 < v -> LeDecodeToInt64 (LeEncodeInt v) = Some v).
Proof.
  unfold LeEncodeInt. unfold in_signed, MaxInt8, MaxInt16, MaxInt32.
  intros H64 Hmin.
  repeat apply conj; intros Hv;
    repeat match goal with
           | |- context [?x <=? ?y] => destruct (Z.leb_spec x y); try lia
           end.
  - unfold to_int8. rewrite (swrap_signed 8) by (unfold in_signed; lia).
    apply roundtrip_int8. unfold in_signed; lia.
  - unfold to_int16. rewrite (swrap_signed 16) by (unfold in_signed; lia).
    apply roundtrip_int16. unfold in_signed; lia.
  - unfold to_int32. rewrite (swrap_signed 32) by (unfold in_signed; lia).
    apply roundtrip_int32. unfold in_signed; lia.
  - unfold to_int64. rewrite (swrap_signed 64) by (unfold in_signed; lia).
    apply roundtrip_int64. unfold in_signed; lia.
Qed.

(** ** The 8-bit decoders on the empty buffer *)

(** C2 fails for the two 8-bit decoders: they index [b[0]] without going
    through [LeFillUpSize], which panics on the empty buffer. *)
Theorem LeDecodeTo8_empty_panics :
  LeDecodeToInt8 [] = None /\ LeDecodeToUint8 [] = None.
Proof. split; reflexivity. Qed.

(** The other decoders return on every buffer. *)
Lemma LeDecode_padded_total (b : list byte) :
  LeDecodeToBool b <> None /\ LeDecodeToString b <> None
  /\ LeDecodeToInt16 b <> None /\ LeDecodeToUint16 b <> None
  /\ LeDecodeToInt32 b <> None /\ LeDecodeToUint32 b <> None
  /\ LeDecodeToInt64 b <> None /\ LeDecodeToUint64 b <> None
  /\ LeDecodeToFloat32 b <> None /\ LeDecodeToFloat64 b <> None
  /\ LeDecodeToInt b <> None.
Proof.
  rewrite LeDecodeToInt16_value, LeDecodeToUint16_value,
    LeDecodeToInt32_value, LeDecodeToUint32_value, LeDecodeToInt64_value,
    LeDecodeToUint64_value, LeDecodeToFloat32_value, LeDecodeToFloat64_value,
    LeDecodeToInt_value.
  unfold LeDecodeToBool, LeDecodeToString.
  repeat apply conj; discriminate.
Qed.

(** * Further properties of the code *)

(** ** LeEncode on lists without nil *)

Lemma LeEncode_from_buf values : forall buf,
  LeEncode_from buf values = buf ++ LeEncode values.
Proof.
  unfold LeEncode.
  induction values as [| value rest IH]; intros buf.
  - cbn. now rewrite app_nil_r.
  - destruct value; cbn [LeEncode_from];
      try (now rewrite app_nil_r);
      rewrite IH, (IH ([] ++ _)); cbn [app]; now rewrite app_assoc.
Qed.

Lemma LeEncode_cons value rest :
  value <> VNil -> LeEncode (value :: rest) = encodeValue value ++ LeEncode rest.
Proof.
  intros Hvalue. unfold LeEncode at 1.
  destruct value; try congruence; cbn [LeEncode_from app];
    apply LeEncode_from_buf.
Qed.

(** X1. On a list that holds no [nil], [LeEncode] returns the encodings of
    the values one after the other, in the order of the list. *)
Theorem LeEncode_concat (values : list Value) :
  Forall (fun value => value <> VNil) values ->
  LeEncode values = concat (map encodeValue values).
Proof.
  induction 1 as [| value rest Hvalue Hrest IH].
  - reflexivity.
  - rewrite LeEncode_cons by assumption. cbn [map concat]. now rewrite IH.
Qed.

Lemma LeEncode_concat_witness :
  Forall (fun value => value <> VNil) [VUint16 258; VBool true]
  /\ LeEncode [VUint16 258; VBool true]
     = concat (map encodeValue [VUint16 258; VBool true]).
Proof.
  assert (H : Forall (fun value => value <> VNil) [VUint16 258; VBool true])
    by (repeat constructor; discriminate).
  split; [ exact H | exact (LeEncode_concat _ H) ].
Defined.

(** X2. Encoding two lists in one call is encoding them apart and joining
    the bytes, as long as the first list holds no [nil]. *)
Theorem LeEncode_app (xs ys : list Value) :
  Forall (fun value => value <> VNil) xs ->
  LeEncode (xs ++ ys) = LeEncode xs ++ LeEncode ys.
Proof.
  induction 1 as [| value rest Hvalue Hrest IH].
  - reflexivity.
  - cbn [app]. rewrite !LeEncode_cons by assumption.
    now rewrite IH, app_assoc.
Qed.

Lemma LeEncode_app_witness :
  Forall (fun value => value <> VNil) [VUint16 258]
  /\ LeEncode ([VUint16 258] ++ [VNil; VBool true])
     = LeEncode [VUint16 258] ++ LeEncode [VNil; VBool true].
Proof.
  assert (H : Forall (fun value => value <> VNil) [VUint16 258])
    by (repeat constructor; discriminate).
  split; [ exact H | exact (LeEncode_app _ [VNil; VBool true] H) ].
Defined.

(** ** Length normalisation and LeFillUpSize *)

(** X3. Once [LeEncode(values...)] has returned,
    [LeEncodeByLength(length, values...)] does to its bytes what
    [LeFillUpSize] does, for every [length]: the same result, and the same
    panic on a negative [length]. *)
Theorem LeEncodeByLength_is_LeFillUpSize (N : Z) (values : list Value) :
  LeEncodeByLength N values = LeFillUpSize (LeEncode values) N
  /\ (N < 0 -> LeEncodeByLength N values = None).
Proof.
  assert (Heq : LeEncodeByLength N values = LeFillUpSize (LeEncode values) N).
  { unfold LeEncodeByLength, LeFillUpSize.
    set (b := LeEncode values). unfold len.
    destruct (Z.ltb_spec (Z.of_nat (length b)) N) as [Hlt | Hge].
    - destruct (Z.ltb_spec N 0) as [Hneg | Hnn]; [ lia | ].
      destruct (Z.geb_spec (Z.of_nat (length b)) N) as [Hge | _]; [ lia | ].
      rewrite copy_make by lia. do 3 f_equal. lia.
    - destruct (Z.gtb_spec (Z.of_nat (length b)) N) as [Hgt | Hle].
      + destruct (Z.ltb_spec N 0) as [Hneg | Hnn]; [ reflexivity | ].
        destruct (Z.geb_spec (Z.of_nat (length b)) N) as [_ | Hlt];
          [ reflexivity | lia ].
      + destruct (Z.ltb_spec N 0) as [Hneg | Hnn]; [ lia | ].
        destruct (Z.geb_spec (Z.of_nat (length b)) N) as [_ | Hlt];
          [ | lia ].
        rewrite firstn_all2 by lia. reflexivity. }
  split; [ exact Heq | ].
  intros Hneg. rewrite Heq. unfold LeFillUpSize.
  destruct (Z.ltb_spec N 0); [ reflexivity | lia ].
Qed.

Lemma LeEncodeByLength_is_LeFillUpSize_witness :
  LeEncodeByLength 2 [VUint32 7] = LeFillUpSize (LeEncode [VUint32 7]) 2
  /\ -1 < 0 /\ LeEncodeByLength (-1) [VUint32 7] = None.
Proof.
  assert (H : -1 < 0) by lia.
  split; [ exact (proj1 (LeEncodeByLength_is_LeFillUpSize 2 [VUint32 7])) | ].
  split; [ exact H | ].
  exact (proj2 (LeEncodeByLength_is_LeFillUpSize (-1) [VUint32 7]) H).
Defined.

(** X4. For [l >= 0], [LeFillUpSize(b, l)] returns exactly [l] bytes, and
    applying it again with the same [l] changes nothing; for [l < 0] it
    panics. *)
Theorem LeFillUpSize_idempotent (b : list byte) (l : Z) :
  (0 <= l ->
   exists c, LeFillUpSize b l = Some c /\ len c = l
             /\ LeFillUpSize c l = Some c)
  /\ (l < 0 -> LeFillUpSize b l = None).
Proof.
  split.
  - intros Hl. rewrite <- (Z2Nat.id l Hl).
    exists (firstn (Z.to_nat l) (b ++ make (Z.to_nat l))).
    assert (Hlen : length (firstn (Z.to_nat l) (b ++ make (Z.to_nat l)))
                   = Z.to_nat l).
    { rewrite length_firstn, length_app, make_length. lia. }
    split; [ apply LeFillUpSize_normalize | ].
    split; [ unfold len; now rewrite Hlen | ].
    rewrite LeFillUpSize_truncate by lia.
    f_equal. apply firstn_all2. lia.
  - intros Hneg. unfold LeFillUpSize.
    destruct (Z.ltb_spec l 0); [ reflexivity | lia ].
Qed.

Lemma LeFillUpSize_idempotent_witness :
  (0 <= 2
   /\ exists c, LeFillUpSize [Byte.x05] 2 = Some c /\ len c = 2
                /\ LeFillUpSize c 2 = Some c)
  /\ (-1 < 0 /\ LeFillUpSize [Byte.x05] (-1) = None).
Proof.
  assert (H1 : 0 <= 2) by lia.
  assert (H2 : -1 < 0) by lia.
  split.
  - split; [ exact H1 | ].
    exact (proj1 (LeFillUpSize_idempotent [Byte.x05] 2) H1).
  - split; [ exact H2 | ].
    exact (proj2 (LeFillUpSize_idempotent [Byte.x05] (-1)) H2).
Defined.

(** ** The adaptive sizers *)

Lemma wrap_swrap w x : 0 < w -> wrap w (swrap w x) = wrap w x.
Proof.
  intros Hw. unfold swrap.
  destruct (wrap w x <? 2 ^ (w - 1)).
  - now apply wrap_idem.
  - unfold wrap.
    replace (x mod 2 ^ w - 2 ^ w) with (x mod 2 ^ w + (-1) * 2 ^ w) by lia.
    rewrite Z_mod_plus_full. apply Z.mod_mod. apply Z.pow_nonzero; lia.
Qed.

Lemma byte_of_Z_wrap x : byte.of_Z (wrap 8 x) = byte.of_Z x.
Proof.
  apply byte.unsigned_inj. rewrite !byte.unsigned_of_Z.
  unfold byte.wrap, wrap. apply Z.mod_mod. lia.
Qed.

Lemma le_combine_byte x : le_combine [byte.of_Z x] = x mod 2 ^ 8.
Proof. rewrite le_combine_1. apply byte.unsigned_of_Z. Qed.

(** X5. [LeEncodeUint] takes the least of 1, 2, 4 and 8 bytes that holds the
    value. *)
Theorem LeEncodeUint_minimal_width (v : Z) :
  in_unsigned 64 v ->
  In (len (LeEncodeUint v)) [1; 2; 4; 8]
  /\ v < 2 ^ (8 * len (LeEncodeUint v))
  /\ (forall m, In m [1; 2; 4; 8] -> v < 2 ^ (8 * m) ->
        len (LeEncodeUint v) <= m).
Proof.
  unfold in_unsigned, len. intros Hv. rewrite LeEncodeUint_length.
  unfold MaxUint8, MaxUint16, MaxUint32.
  repeat match goal with
         | |- context [?x <=? ?y] => destruct (Z.leb_spec x y)
         end;
    (split; [ cbn; tauto | ]);
    (split; [ cbn; lia | ]);
    intros m Hm Hfit; cbn in Hm;
    repeat (destruct Hm as [<- | Hm]; [ cbn in Hfit; cbn; lia | ]);
    contradiction.
Qed.

Lemma LeEncodeUint_minimal_width_witness :
  in_unsigned 64 255
  /\ In (len (LeEncodeUint 255)) [1; 2; 4; 8]
  /\ 255 < 2 ^ (8 * len (LeEncodeUint 255))
  /\ (forall m, In m [1; 2; 4; 8] -> 255 < 2 ^ (8 * m) ->
        len (LeEncodeUint 255) <= m).
Proof.
  assert (H : in_unsigned 64 255) by (unfold in_unsigned; lia).
  split; [ exact H | exact (LeEncodeUint_minimal_width 255 H) ].
Defined.

(** X6. Whatever width [LeEncodeUint] chose, [LeDecodeToUint] reads the
    value back: the missing high bytes are taken as zero. *)
Theorem LeEncodeUint_roundtrip (v : Z) :
  in_unsigned 64 v -> LeDecodeToUint (LeEncodeUint v) = Some v.
Proof.
  unfold in_unsigned. intros Hv. unfold LeDecodeToUint.
  rewrite LeDecodeToUint64_value. cbn [bind]. f_equal.
  unfold to_uint, wrap. rewrite Z.mod_mod by lia.
  unfold LeEncodeUint, MaxUint8, MaxUint16, MaxUint32,
    to_uint8, to_uint16, to_uint32, to_uint64.
  repeat match goal with
         | |- context [?x <=? ?y] => destruct (Z.leb_spec x y)
         end.
  - unfold LeEncodeUint8. rewrite byte_of_Z_wrap, le_combine_byte.
    repeat rewrite (Z.mod_small v) by lia. reflexivity.
  - rewrite LeEncodeUint16_split, le_combine_split.
    cbn [Z.of_nat Pos.of_succ_nat Pos.succ Z.mul Pos.mul].
    unfold wrap. repeat rewrite (Z.mod_small v) by lia. reflexivity.
  - rewrite LeEncodeUint32_split, le_combine_split.
    cbn [Z.of_nat Pos.of_succ_nat Pos.succ Z.mul Pos.mul].
    unfold wrap. repeat rewrite (Z.mod_small v) by lia. reflexivity.
  - rewrite LeEncodeUint64_split, le_combine_split.
    cbn [Z.of_nat Pos.of_succ_nat Pos.succ Z.mul Pos.mul].
    unfold wrap. repeat rewrite (Z.mod_small v) by lia. reflexivity.
Qed.

Lemma LeEncodeUint_roundtrip_witness :
  in_unsigned 64 70000 /\ LeDecodeToUint (LeEncodeUint 70000) = Some 70000.
Proof.
  assert (H : in_unsigned 64 70000) by (unfold in_unsigned; lia).
  split; [ exact H | exact (LeEncodeUint_roundtrip 70000 H) ].
Defined.

(** X7. A non-negative [int] encoded by [LeEncodeInt] is read back by
    [LeDecodeToInt], whatever width was chosen. *)
Theorem LeEncodeInt_roundtrip_nonneg (v : Z) :
  0 <= v < 2 ^ 63 -> LeDecodeToInt (LeEncodeInt v) = Some v.
Proof.
  intros Hv. rewrite LeDecodeToInt_value. f_equal.
  unfold LeEncodeInt, MaxInt8, MaxInt16, MaxInt32,
    to_int8, to_int16, to_int32, to_int64.
  repeat match goal with
         | |- context [?x <=? ?y] => destruct (Z.leb_spec x y)
         end.
  - rewrite (swrap_signed 8 ltac:(lia) v) by (unfold in_signed; lia).
    unfold LeEncodeInt8, to_uint8. rewrite byte_of_Z_wrap, le_combine_byte.
    repeat rewrite (Z.mod_small v) by lia. apply (swrap_low 64); lia.
  - rewrite (swrap_signed 16 ltac:(lia) v) by (unfold in_signed; lia).
    rewrite LeEncodeInt16_split, le_combine_split.
    cbn [Z.of_nat Pos.of_succ_nat Pos.succ Z.mul Pos.mul].
    unfold to_uint16, wrap. repeat rewrite (Z.mod_small v) by lia.
    apply (swrap_low 64); lia.
  - rewrite (swrap_signed 32 ltac:(lia) v) by (unfold in_signed; lia).
    rewrite LeEncodeInt32_split, le_combine_split.
    cbn [Z.of_nat Pos.of_succ_nat Pos.succ Z.mul Pos.mul].
    unfold to_uint32, wrap. repeat rewrite (Z.mod_small v) by lia.
    apply (swrap_low 64); lia.
  - rewrite (swrap_signed 64 ltac:(lia) v) by (unfold in_signed; lia).
    rewrite LeEncodeInt64_split, le_combine_split.
    cbn [Z.of_nat Pos.of_succ_nat Pos.succ Z.mul Pos.mul].
    unfold to_uint64, wrap. repeat rewrite (Z.mod_small v) by lia.
    apply (swrap_low 64); lia.
Qed.

Lemma LeEncodeInt_roundtrip_nonneg_witness :
  0 <= 70000 < 2 ^ 63 /\ LeDecodeToInt (LeEncodeInt 70000) = Some 70000.
Proof.
  assert (H : 0 <= 70000 < 2 ^ 63) by lia.
  split; [ exact H | exact (LeEncodeInt_roundtrip_nonneg 70000 H) ].
Defined.

(** X8. Every [int] up to 127, the negative ones included, is encoded by
    [LeEncodeInt] as its low byte alone, and [LeDecodeToInt] reads that byte
    back as a number from 0 to 255. *)
Theorem LeEncodeInt_low_byte (v : Z) :
  v <= MaxInt8 ->
  LeEncodeInt v = [byte.of_Z v]
  /\ LeDecodeToInt (LeEncodeInt v) = Some (v mod 256).
Proof.
  unfold MaxInt8. intros Hv.
  assert (Henc : LeEncodeInt v = [byte.of_Z v]).
  { unfold LeEncodeInt, MaxInt8.
    destruct (Z.leb_spec v 127) as [_ | Hgt]; [ | lia ].
    unfold LeEncodeInt8, to_uint8, to_int8.
    rewrite byte_of_Z_wrap. f_equal.
    rewrite <- (byte_of_Z_wrap (swrap 8 v)), <- (byte_of_Z_wrap v).
    f_equal. apply wrap_swrap. lia. }
  split; [ exact Henc | ].
  rewrite Henc, LeDecodeToInt_value, le_combine_byte. f_equal.
  pose proof (Z.mod_pos_bound v (2 ^ 8) ltac:(lia)) as Hb.
  change (2 ^ 8) with 256 in *.
  rewrite (Z.mod_small (v mod 256)) by lia. apply (swrap_low 64); lia.
Qed.

Lemma LeEncodeInt_low_byte_witness :
  -200 <= MaxInt8
  /\ LeEncodeInt (-200) = [byte.of_Z (-200)]
  /\ LeDecodeToInt (LeEncodeInt (-200)) = Some ((-200) mod 256).
Proof.
  assert (H : -200 <= MaxInt8) by (unfold MaxInt8; lia).
  split; [ exact H | exact (LeEncodeInt_low_byte (-200) H) ].
Defined.

(** ** Strings, booleans and floats *)

(** X9. [LeDecodeToString] and [LeEncodeString] are inverse of each other:
    a string comes back from its bytes, and bytes come back from their
    string. *)
Theorem string_roundtrip :
  (forall s, LeDecodeToString (LeEncodeString s) = Some s)
  /\ (forall b s, LeDecodeToString b = Some s -> LeEncodeString s = b).
Proof.
  unfold LeDecodeToString, LeEncodeString. split.
  - intros s. now rewrite String.string_of_list_byte_of_string.
  - intros b s [= <-]. apply String.list_byte_of_string_of_list_byte.
Qed.

(** X10. [LeDecodeToBool] reads back what [LeEncodeBool] wrote, and it
    returns true exactly on a buffer that is not empty and whose first byte
    is not zero; the other bytes do not count. *)
Theorem bool_roundtrip :
  (forall x, LeDecodeToBool (LeEncodeBool x) = Some x)
  /\ (forall b,
        LeDecodeToBool b = Some true
        <-> exists b0 rest, b = b0 :: rest /\ b0 <> Byte.x00).
Proof.
  split.
  - intros []; reflexivity.
  - intros b. unfold LeDecodeToBool. destruct b as [| b0 rest].
    + split; [ discriminate | intros (? & ? & [=] & _) ].
    + destruct (Z.eqb_spec (byte.unsigned b0) 0) as [Hz | Hnz]; cbn [negb].
      * split; [ discriminate | ].
        intros (c0 & rest' & [= <- <-] & Hc0). exfalso. apply Hc0.
        apply byte.unsigned_inj. exact Hz.
      * split; [ | reflexivity ].
        intros _. exists b0, rest. split; [ reflexivity | ].
        intros ->. apply Hnz. reflexivity.
Qed.

(** X11. A float comes back bit for bit: decoding the encoding of a 32-bit
    (64-bit) pattern returns the pattern. *)
Theorem float_bits_roundtrip (bits : Z) :
  (in_unsigned 32 bits ->
   LeDecodeToFloat32 (LeEncodeFloat32 bits) = Some bits)
  /\ (in_unsigned 64 bits ->
      LeDecodeToFloat64 (LeEncodeFloat64 bits) = Some bits).
Proof.
  split; intros Hbits.
  - rewrite LeDecodeToFloat32_value. unfold LeEncodeFloat32.
    rewrite PutUint32_make, le_combine_split.
    cbn [Z.of_nat Pos.of_succ_nat Pos.succ Z.mul Pos.mul].
    f_equal. rewrite Z.mod_mod by lia. now apply (wrap_small 32).
  - rewrite LeDecodeToFloat64_value. unfold LeEncodeFloat64.
    rewrite PutUint64_make, le_combine_split.
    cbn [Z.of_nat Pos.of_succ_nat Pos.succ Z.mul Pos.mul].
    f_equal. rewrite Z.mod_mod by lia. now apply (wrap_small 64).
Qed.

Lemma float_bits_roundtrip_witness :
  (in_unsigned 32 1078530011
   /\ LeDecodeToFloat32 (LeEncodeFloat32 1078530011) = Some 1078530011)
  /\ (in_unsigned 64 1078530011
      /\ LeDecodeToFloat64 (LeEncodeFloat64 1078530011) = Some 1078530011).
Proof.
  assert (H32 : in_unsigned 32 1078530011) by (unfold in_unsigned; lia).
  assert (H64 : in_unsigned 64 1078530011) by (unfold in_unsigned; lia).
  destruct (float_bits_roundtrip 1078530011) as [F32 F64].
  exact (conj (conj H32 (F32 H32)) (conj H64 (F64 H64))).
Defined.

(** ** What the lenient decoders return *)

Lemma wrap_low_of_64 w x :
  0 < w <= 64 -> wrap w (x mod 2 ^ 64) = wrap w x.
Proof.
  intros Hw. unfold wrap. apply Z.mod_mod_divide.
  exists (2 ^ (64 - w)). rewrite <- Z.pow_add_r by lia. f_equal. lia.
Qed.

Lemma swrap_low_of_64 w x :
  0 < w <= 64 -> swrap w (x mod 2 ^ 64) = swrap w x.
Proof. intros Hw. unfold swrap. now rewrite wrap_low_of_64. Qed.

(** X13. The decoders of the different widths agree: on every buffer each
    of them returns the low bits of what [LeDecodeToUint64] returns, read as
    its own type; on a buffer that is not empty so do the two 8-bit ones. *)
Theorem lenient_decoders_agree (b : list byte) :
  exists u,
    LeDecodeToUint64 b = Some u
    /\ LeDecodeToInt64 b = Some (to_int64 u)
    /\ LeDecodeToUint32 b = Some (to_uint32 u)
    /\ LeDecodeToInt32 b = Some (to_int32 u)
    /\ LeDecodeToUint16 b = Some (to_uint16 u)
    /\ LeDecodeToInt16 b = Some (to_int16 u)
    /\ (b <> [] ->
        LeDecodeToUint8 b = Some (to_uint8 u)
        /\ LeDecodeToInt8 b = Some (to_int8 u)).
Proof.
  exists (le_combine b mod 2 ^ 64).
  rewrite LeDecodeToInt16_value, LeDecodeToUint16_value,
    LeDecodeToInt32_value, LeDecodeToUint32_value, LeDecodeToInt64_value,
    LeDecodeToUint64_value.
  unfold to_uint16, to_uint32, to_int16, to_int32, to_int64, to_uint8, to_int8.
  rewrite !wrap_low_of_64, !swrap_low_of_64 by lia.
  repeat apply conj; try reflexivity.
  - f_equal. unfold swrap. fold (wrap 32 (le_combine b)).
    now rewrite wrap_idem by lia.
  - f_equal. unfold swrap. fold (wrap 16 (le_combine b)).
    now rewrite wrap_idem by lia.
  - intros Hne. destruct b as [| b0 rest]; [ congruence | ].
    unfold LeDecodeToUint8, LeDecodeToInt8. cbn [index0 hd_error bind].
    pose proof (le_combine_firstn 1 (b0 :: rest)) as H1.
    cbn [firstn] in H1. rewrite le_combine_1 in H1.
    change (2 ^ (8 * Z.of_nat 1)) with (2 ^ 8) in H1.
    fold (wrap 8 (le_combine (b0 :: rest))) in H1.
    split; f_equal; [ exact H1 | ].
    unfold to_int8, swrap. rewrite <- H1.
    rewrite (wrap_small 8) by (try lia; apply byte.unsigned_range).
    reflexivity.
Qed.

(** ** More on the strict decoder *)

(** Every call of [LeDecode_from] ends with [nil] when the bytes suffice and
    with an error otherwise. *)
Lemma LeDecode_from_outcome values : forall buf h,
  if (wireSize values <=? length buf)%nat
  then exists h', LeDecode_from buf values h = (h', Nil)
  else exists h' e, LeDecode_from buf values h = (h', Err e).
Proof.
  induction values as [| [k p] rest IH]; intros buf h.
  - cbn. eauto.
  - rewrite wireSize_cons. cbn [LeDecode_from].
    destruct (Nat.le_gt_cases (intDataSize k) (length buf)) as [Hle | Hgt].
    + destruct (Read_enough buf k p h Hle) as [v ->].
      specialize (IH (skipn (intDataSize k) buf) (store h p v)).
      rewrite length_skipn in IH.
      destruct (Nat.leb_spec (wireSize rest) (length buf - intDataSize k));
        destruct (Nat.leb_spec (intDataSize k + wireSize rest) (length buf));
        try lia; exact IH.
    + destruct (Read_short buf k p h Hgt) as [buf' ->].
      destruct (Nat.leb_spec (intDataSize k + wireSize rest) (length buf));
        [ lia | eauto ].
Qed.

(** X15. When each destination points to a cell of the memory, [LeDecode]
    returns [nil] exactly when the buffer holds at least the bytes the
    destinations need. *)
Theorem LeDecode_succeeds_iff (b : list byte) (values : list Slot) (h : Heap) :
  Forall (fun value : Slot => (snd value < length h)%nat) values ->
  snd (LeDecode b values h) = Nil <-> (wireSize values <= length b)%nat.
Proof.
  intros _.
  unfold LeDecode. pose proof (LeDecode_from_outcome values b h) as H.
  destruct (Nat.leb_spec (wireSize values) (length b)) as [Hle | Hgt].
  - destruct H as [h' ->]. cbn. tauto.
  - destruct H as (h' & e & ->). cbn. split; [ discriminate | lia ].
Qed.

Lemma LeDecode_succeeds_iff_witness :
  Forall (fun value : Slot => (snd value < length [0; 0])%nat)
    [(KUint32, 0%nat); (KUint16, 1%nat)]
  /\ (snd (LeDecode [Byte.x01; Byte.x00; Byte.x00; Byte.x00; Byte.x02]
            [(KUint32, 0%nat); (KUint16, 1%nat)] [0; 0]) = Nil
      <-> (wireSize [(KUint32, 0%nat); (KUint16, 1%nat)]
           <= length [Byte.x01; Byte.x00; Byte.x00; Byte.x00; Byte.x02])%nat).
Proof.
  assert (H : Forall (fun value : Slot => (snd value < length [0; 0])%nat)
                [(KUint32, 0%nat); (KUint16, 1%nat)])
    by (repeat constructor; cbn; lia).
  split; [ exact H | ].
  exact (LeDecode_succeeds_iff
           [Byte.x01; Byte.x00; Byte.x00; Byte.x00; Byte.x02]
           [(KUint32, 0%nat); (KUint16, 1%nat)] [0; 0] H).
Defined.

(** X16. Decoding into two lists of destinations in one call is decoding
    into the first list and then, when that returned [nil], into the second
    from the bytes that follow; when the first part fails, so does the whole
    with the same memory and error. *)
Theorem LeDecode_app (b : list byte) (vs1 vs2 : list Slot) (h : Heap) :
  LeDecode b (vs1 ++ vs2) h
  = match LeDecode b vs1 h with
    | (h1, Nil) => LeDecode (skipn (wireSize vs1) b) vs2 h1
    | failed => failed
    end.
Proof.
  unfold LeDecode. revert b h.
  induction vs1 as [| [k p] rest IH]; intros b h.
  - reflexivity.
  - rewrite wireSize_cons. cbn [app LeDecode_from].
    destruct (Nat.le_gt_cases (intDataSize k) (length b)) as [Hle | Hgt].
    + destruct (Read_enough b k p h Hle) as [v ->].
      rewrite IH, skipn_skipn.
      now rewrite (Nat.add_comm (wireSize rest)).
    + destruct (Read_short b k p h Hgt) as [buf' ->]. reflexivity.
Qed.

(** X17. When the buffer holds the bytes the destinations need, the bytes
    after them are not looked at. *)
Theorem LeDecode_ignores_trailing_bytes
    (b extra : list byte) (values : list Slot) (h : Heap) :
  (wireSize values <= length b)%nat ->
  LeDecode (b ++ extra) values h = LeDecode b values h.
Proof.
  unfold LeDecode. revert b h.
  induction values as [| [k p] rest IH]; intros b h Hle.
  - reflexivity.
  - rewrite wireSize_cons in Hle. cbn [LeDecode_from].
    assert (Hk : (intDataSize k <= length b)%nat) by lia.
    unfold Read, ReadFull. rewrite length_app.
    destruct (Nat.leb_spec (intDataSize k) (length b + length extra));
      [ | lia ].
    destruct (Nat.leb_spec (intDataSize k) (length b)); [ | lia ].
    rewrite firstn_app, skipn_app.
    replace (intDataSize k - length b)%nat with 0%nat by lia.
    cbn [firstn skipn]. rewrite app_nil_r.
    destruct (decodeFast k (firstn (intDataSize k) b)); [ | reflexivity ].
    apply IH. rewrite length_skipn. lia.
Qed.

Lemma LeDecode_ignores_trailing_bytes_witness :
  (wireSize [(KUint16, 0%nat)] <= length [Byte.x02; Byte.x01])%nat
  /\ LeDecode ([Byte.x02; Byte.x01] ++ [Byte.xff]) [(KUint16, 0%nat)] [0]
     = LeDecode [Byte.x02; Byte.x01] [(KUint16, 0%nat)] [0].
Proof.
  assert (H : (wireSize [(KUint16, 0%nat)]
               <= length [Byte.x02; Byte.x01])%nat) by (cbn; lia).
  split; [ exact H | ].
  exact (LeDecode_ignores_trailing_bytes
           [Byte.x02; Byte.x01] [Byte.xff] [(KUint16, 0%nat)] [0] H).
Defined.

Lemma store_length h : forall p v, length (store h p v) = length h.
Proof.
  induction h as [| x t IH]; intros [| p] v; cbn; try reflexivity.
  now rewrite IH.
Qed.

Lemma nth_error_store_other h : forall p q v,
  p <> q -> nth_error (store h p v) q = nth_error h q.
Proof.
  induction h as [| x t IH]; intros [| p] [| q] v Hpq; cbn;
    try reflexivity; try congruence.
  apply IH. congruence.
Qed.

Lemma nth_error_store_same h : forall p v,
  (p < length h)%nat -> nth_error (store h p v) p = Some v.
Proof.
  induction h as [| x t IH]; intros [| p] v Hp; cbn in *;
    try lia; try reflexivity.
  apply IH. lia.
Qed.

(** What one [binary.Read] does to the memory: nothing, or one store
    through the pointer. *)
Lemma Read_heap buf k p h buf' h' r :
  Read buf (k, p) h = (buf', h', r) ->
  h' = h \/ exists v, h' = store h p v.
Proof.
  unfold Read.
  destruct (ReadFull buf (intDataSize k)) as [rest [err | bs]].
  - intros [= _ <- _]. now left.
  - destruct (decodeFast k bs) as [v |]; intros [= _ <- _];
      [ right; now exists v | now left ].
Qed.

(** X18. [LeDecode] writes through the pointers it is given and nowhere
    else: the memory keeps its size, and a cell that no destination points
    to keeps its content, whether the call succeeds or fails. *)
Theorem LeDecode_frame (b : list byte) (values : list Slot) (h : Heap) :
  length (fst (LeDecode b values h)) = length h
  /\ (forall q, (forall k, ~ In (k, q) values) ->
        nth_error (fst (LeDecode b values h)) q = nth_error h q).
Proof.
  unfold LeDecode. revert b h.
  induction values as [| [k p] rest IH]; intros b h.
  - cbn. auto.
  - cbn [LeDecode_from].
    destruct (Read b (k, p) h) as [[buf' h'] r] eqn:HRead.
    assert (Hlen : length h' = length h).
    { destruct (Read_heap _ _ _ _ _ _ _ HRead) as [-> | [v ->]];
        [ reflexivity | apply store_length ]. }
    assert (Hframe : forall q, q <> p -> nth_error h' q = nth_error h q).
    { intros q Hq.
      destruct (Read_heap _ _ _ _ _ _ _ HRead) as [-> | [v ->]];
        [ reflexivity | apply nth_error_store_other; congruence ]. }
    assert (Hp : forall q, (forall k', ~ In (k', q) ((k, p) :: rest)) ->
                   q <> p /\ (forall k', ~ In (k', q) rest)).
    { intros q Hq. split.
      - intros ->. apply (Hq k). now left.
      - intros k' Hin. apply (Hq k'). now right. }
    destruct r as [| err |]; cbn [fst].
    + destruct (IH buf' h') as [IHlen IHframe]. split.
      * now rewrite IHlen.
      * intros q Hq. destruct (Hp q Hq) as [Hne Hrest].
        rewrite IHframe by assumption. now apply Hframe.
    + split; [ assumption | ].
      intros q Hq. apply Hframe. now apply Hp.
    + split; [ assumption | ].
      intros q Hq. apply Hframe. now apply Hp.
Qed.

(** ** From LeEncode to LeDecode *)

Section EncodeDecode.
Import Cell.

Ltac split_roundtrip split_lemma exact_lemma :=
  rewrite split_lemma;
  split; [ apply length_le_split | ];
  rewrite exact_lemma by apply length_le_split;
  rewrite le_combine_split;
  cbn [Z.of_nat Pos.of_succ_nat Pos.succ Z.mul Pos.mul bind]; f_equal.

(** The bytes [LeEncode] writes for a value of kind [k] are as many as
    [binary.Read] takes for a pointer to that kind, and [decodeFast] reads
    the value back from them. *)
Lemma decodeFast_encodeValue k v :
  holds k v ->
  length (encodeValue (valueOf k v)) = intDataSize k
  /\ decodeFast k (encodeValue (valueOf k v)) = Some v.
Proof.
  destruct k; cbn [holds valueOf encodeValue decodeFast intDataSize];
    intros Hv.
  - destruct Hv as [-> | ->]; split; reflexivity.
  - split; [ reflexivity | exact (roundtrip_int8 v Hv) ].
  - split; [ reflexivity | exact (roundtrip_uint8 v Hv) ].
  - split_roundtrip LeEncodeInt16_split Uint16_exact.
    unfold to_int16, to_uint16. fold (wrap 16 (wrap 16 v)).
    rewrite wrap_idem by lia. apply swrap_wrap; [ lia | exact Hv ].
  - unfold LeEncodeUint16. rewrite PutUint16_make.
    split; [ apply length_le_split | ].
    rewrite Uint16_exact by apply length_le_split.
    rewrite le_combine_split. f_equal. now apply (wrap_small 16).
  - split_roundtrip LeEncodeInt32_split Uint32_exact.
    unfold to_int32, to_uint32. fold (wrap 32 (wrap 32 v)).
    rewrite wrap_idem by lia. apply swrap_wrap; [ lia | exact Hv ].
  - unfold LeEncodeUint32. rewrite PutUint32_make.
    split; [ apply length_le_split | ].
    rewrite Uint32_exact by apply length_le_split.
    rewrite le_combine_split. f_equal. now apply (wrap_small 32).
  - split_roundtrip LeEncodeInt64_split Uint64_exact.
    unfold to_int64, to_uint64. fold (wrap 64 (wrap 64 v)).
    rewrite wrap_idem by lia. apply swrap_wrap; [ lia | exact Hv ].
  - unfold LeEncodeUint64. rewrite PutUint64_make.
    split; [ apply length_le_split | ].
    rewrite Uint64_exact by apply length_le_split.
    rewrite le_combine_split. f_equal. now apply (wrap_small 64).
  - unfold LeEncodeFloat32. rewrite PutUint32_make.
    split; [ apply length_le_split | ].
    rewrite Uint32_exact by apply length_le_split.
    rewrite le_combine_split. f_equal. now apply (wrap_small 32).
  - unfold LeEncodeFloat64. rewrite PutUint64_make.
    split; [ apply length_le_split | ].
    rewrite Uint64_exact by apply length_le_split.
    rewrite le_combine_split. f_equal. now apply (wrap_small 64).
Qed.

Lemma Read_exact enc more k p h v :
  length enc = intDataSize k -> decodeFast k enc = Some v ->
  Read (enc ++ more) (k, p) h = (more, store h p v, Nil).
Proof.
  intros Hlen Hdec. unfold Read, ReadFull. rewrite length_app, <- Hlen.
  destruct (Nat.leb_spec (length enc) (length enc + length more)); [ | lia ].
  rewrite firstn_app, skipn_app, firstn_all, skipn_all, Nat.sub_diag.
  cbn [firstn skipn app]. rewrite app_nil_r, Hdec. reflexivity.
Qed.

Lemma valueOf_not_nil k v : valueOf k v <> VNil.
Proof. destruct k; discriminate. Qed.

(** X19. [LeDecode] inverts [LeEncode] on fixed-width values: when fields
    of the fixed-width kinds are encoded in one call and the bytes, with
    whatever follows them, are decoded through pointers of the same kinds in
    the same order, the call returns [nil] and each pointer has been written
    with its field, in order (a pointer given twice keeps the later
    field). *)
Theorem LeDecode_LeEncode_roundtrip (fields : list Field) :
  Forall (fun f : Field => holds (fst (fst f)) (snd f)) fields ->
  forall (extra : list byte) (h : Heap),
    LeDecode (LeEncode (map fieldValue fields) ++ extra)
             (map fieldSlot fields) h
    = (storeAll fields h, Nil).
Proof.
  unfold LeDecode, storeAll.
  induction 1 as [| [[k p] v] rest Hv Hrest IH]; intros extra h.
  - reflexivity.
  - cbn [map fieldValue fieldSlot fold_left fst snd] in *.
    rewrite LeEncode_cons by apply valueOf_not_nil.
    rewrite <- app_assoc. cbn [LeDecode_from].
    destruct (decodeFast_encodeValue k v Hv) as [Hlen Hdec].
    rewrite (Read_exact _ _ _ _ _ _ Hlen Hdec). apply IH.
Qed.

Lemma LeDecode_LeEncode_roundtrip_witness :
  Forall (fun f : Field => holds (fst (fst f)) (snd f))
    [(KUint32, 1%nat, 7); (KInt16, 0%nat, -2)]
  /\ LeDecode (LeEncode [VUint32 7; VInt16 (-2)] ++ [Byte.xff])
       [(KUint32, 1%nat); (KInt16, 0%nat)] [0; 0]
     = ([-2; 7], Nil).
Proof.
  assert (H : Forall (fun f : Field => holds (fst (fst f)) (snd f))
                [(KUint32, 1%nat, 7); (KInt16, 0%nat, -2)]).
  { repeat constructor; cbn; unfold in_unsigned, in_signed; lia. }
  split; [ exact H | ].
  exact (LeDecode_LeEncode_roundtrip _ H [Byte.xff] [0; 0]).
Defined.

End EncodeDecode.

(** ** More on the RS hash *)

Section RSLoop.
Import Hash.

Variable w : Z.
Hypothesis w_pos : 0 < w.

Let pow_nz : 2 ^ w <> 0.
Proof. apply Z.pow_nonzero; lia. Qed.

(** After [n] iterations [a] is [63689 * 378551 ^ n], up to wrap-around. *)
Lemma RS_loop_multiplier str : forall st,
  wrap w (snd (fold_left (RS_step w) str st))
  = wrap w (snd st * 378551 ^ Z.of_nat (length str)).
Proof.
  induction str as [| c str IH]; intros [hash a].
  - cbn [fold_left length snd Z.of_nat]. now rewrite Z.pow_0_r, Z.mul_1_r.
  - cbn [fold_left length]. rewrite IH. unfold RS_step. cbn [snd].
    rewrite Nat2Z.inj_succ, Z.pow_succ_r by lia.
    unfold wrap. rewrite Z.mul_mod_idemp_l by assumption.
    f_equal. ring.
Qed.

(** The hash stays in the range of its type. *)
Lemma RS_loop_range str : forall st,
  0 <= fst st < 2 ^ w ->
  0 <= fst (fold_left (RS_step w) str st) < 2 ^ w.
Proof.
  induction str as [| c str IH]; intros [hash a] Hst.
  - exact Hst.
  - cbn [fold_left]. apply IH. unfold RS_step. cbn [fst].
    now apply wrap_range.
Qed.

(** A zero byte leaves a zero hash at zero. *)
Lemma RS_loop_zeros n : forall a,
  fst (fold_left (RS_step w) (repeat Byte.x00 n) (0, a)) = 0.
Proof.
  induction n as [| n IH]; intros a.
  - reflexivity.
  - cbn [repeat fold_left]. unfold RS_step at 2.
    change (byte.unsigned Byte.x00) with 0.
    unfold wrap at 1 2 3. rewrite Z.mul_0_l, !Z.mod_0_l by assumption.
    apply IH.
Qed.

(** One more byte: the hash so far times the current multiplier, plus the
    byte. *)
Lemma RS_loop_snoc str c st :
  fst (fold_left (RS_step w) (str ++ [c]) st)
  = wrap w (fst (fold_left (RS_step w) str st)
            * (snd st * 378551 ^ Z.of_nat (length str))
            + byte.unsigned c).
Proof.
  rewrite fold_left_app. cbn [fold_left].
  pose proof (RS_loop_multiplier str st) as Hm.
  destruct (fold_left (RS_step w) str st) as [hash a].
  unfold RS_step. cbn [fst snd] in *. unfold wrap in *.
  rewrite <- Z.add_mod by assumption.
  rewrite <- (Z.add_mod_idemp_l (hash * a)) by assumption.
  rewrite <- (Z.mul_mod_idemp_r hash a) by assumption.
  rewrite Hm.
  rewrite Z.mul_mod_idemp_r by assumption.
  now rewrite Z.add_mod_idemp_l by assumption.
Qed.

End RSLoop.

(** X20. [RS] returns a 32-bit and [RS64] a 64-bit unsigned number, and
    both return 0 on every input made of zero bytes only, the empty input
    included. *)
Theorem RS_range_and_zeros :
  (forall str, in_unsigned 32 (Hash.RS str) /\ in_unsigned 64 (Hash.RS64 str))
  /\ (forall n, Hash.RS (repeat Byte.x00 n) = 0
                /\ Hash.RS64 (repeat Byte.x00 n) = 0).
Proof.
  unfold Hash.RS, Hash.RS64, in_unsigned. split.
  - intros str. split; apply RS_loop_range; cbn [fst]; lia.
  - intros n. split; apply RS_loop_zeros; lia.
Qed.

(** X21. Appending one byte [c] to an input of [n] bytes turns the hash [h]
    into [h * (63689 * 378551 ^ n) + c], reduced to 32 bits for [RS] and to
    64 bits for [RS64]. *)
Theorem RS_snoc (str : list byte) (c : byte) :
  Hash.RS (str ++ [c])
  = (Hash.RS str * (63689 * 378551 ^ Z.of_nat (length str))
     + byte.unsigned c) mod 2 ^ 32
  /\ Hash.RS64 (str ++ [c])
     = (Hash.RS64 str * (63689 * 378551 ^ Z.of_nat (length str))
        + byte.unsigned c) mod 2 ^ 64.
Proof.
  unfold Hash.RS, Hash.RS64. split; apply RS_loop_snoc; lia.
Qed.

(** ** Rendering an error code *)

Section CodeString.
Import Code.

Lemma formatInt_not_empty n : formatInt n <> ""%string.
Proof.
  unfold formatInt.
  assert (Hu : forall d, DecimalString.NilZero.string_of_uint d <> ""%string)
    by (intros []; discriminate).
  destruct n; cbn; [ discriminate | apply Hu | discriminate ].
Qed.

Lemma append_eq_self s : forall rest,
  String.append s rest = s <-> rest = ""%string.
Proof.
  induction s as [| a s IH]; intros rest; cbn.
  - tauto.
  - rewrite <- IH. split; [ intros [= H]; exact H | intros ->; reflexivity ].
Qed.

Lemma append_not_empty s rest :
  s <> ""%string -> String.append s rest <> ""%string.
Proof. destruct s; [ congruence | discriminate ]. Qed.

(** X22. The text of an error code is never empty and always starts with
    the code in decimal; it is the code alone exactly when the error code
    has neither a message nor a detail. *)
Theorem localCode_String_code (c : localCode) :
  localCode_String c <> ""%string
  /\ (exists rest,
        localCode_String c = String.append (formatInt (code c)) rest)
  /\ (localCode_String c = formatInt (code c)
      <-> detail c = None /\ message c = ""%string).
Proof.
  unfold localCode_String.
  destruct (detail c) as [d |].
  - split; [ | split ].
    + apply append_not_empty, formatInt_not_empty.
    + eexists. reflexivity.
    + split; [ intros Heq; apply append_eq_self in Heq; discriminate Heq
             | intros [Hd _]; discriminate Hd ].
  - destruct (String.eqb_spec (message c) "") as [Hm | Hm].
    + split; [ | split ].
      * apply formatInt_not_empty.
      * exists ""%string. clear.
        induction (formatInt (code c)); cbn; congruence.
      * tauto.
    + split; [ | split ].
      * apply append_not_empty, formatInt_not_empty.
      * eexists. reflexivity.
      * split; [ intros Heq; apply append_eq_self in Heq; discriminate Heq
               | tauto ].
Qed.

End CodeString.

(** ** Going to the origin of a type or value *)

Section Origin.
Import Reflection.

Lemma originType_not_ptr t : isPtr (Type_Kind (originType t)) = false.
Proof. induction t as [elem IH | k Hk]; [ exact IH | exact Hk ]. Qed.

Lemma originType_idem t : originType (originType t) = originType t.
Proof. induction t as [elem IH | k Hk]; [ exact IH | reflexivity ]. Qed.

Lemma originValue_not_ptr v : isPtr (Value_Kind (originValue v)) = false.
Proof.
  induction v as [| elem IH | k Hk x]; [ reflexivity | exact IH | exact Hk ].
Qed.

Lemma originValue_idem v : originValue (originValue v) = originValue v.
Proof.
  induction v as [| elem IH | k Hk x]; [ reflexivity | exact IH | reflexivity ].
Qed.

(** X23. The origin kind [OriginTypeAndKind] returns is never [Ptr]; a
    pointer type has the origin of its element type; and the origin type,
    given back to the function, is its own origin. *)
Theorem OriginTypeAndKind_origin :
  (forall value, TypeOriginKind (OriginTypeAndKind value) <> Ptr)
  /\ (forall t,
        OriginType (OriginTypeAndKind (Some (PtrTo t)))
        = OriginType (OriginTypeAndKind (Some t))
        /\ TypeOriginKind (OriginTypeAndKind (Some (PtrTo t)))
           = TypeOriginKind (OriginTypeAndKind (Some t)))
  /\ (forall value,
        let out := OriginTypeAndKind (OriginType (OriginTypeAndKind value)) in
        InputType out = OriginType out
        /\ TypeInputKind out = TypeOriginKind out
        /\ OriginType out = OriginType (OriginTypeAndKind value)).
Proof.
  split; [ | split ].
  - intros [t |]; cbn; [ | discriminate ].
    pose proof (originType_not_ptr t) as H. intros Heq.
    rewrite Heq in H. discriminate H.
  - intros t. split; reflexivity.
  - intros [t |]; cbn; [ | repeat split ].
    rewrite originType_idem. repeat split.
Qed.

(** X24. The origin kind [OriginValueAndKind] returns is never [Ptr]; a
    pointer has the origin of what it points to; and the origin value, given
    back to the function, is its own origin. *)
Theorem OriginValueAndKind_origin :
  (forall v, OriginKind (OriginValueAndKind v) <> Ptr)
  /\ (forall v,
        OriginValue (OriginValueAndKind (PtrValue v))
        = OriginValue (OriginValueAndKind v))
  /\ (forall v,
        OriginValueAndKind (OriginValue (OriginValueAndKind v))
        = {| InputValue := OriginValue (OriginValueAndKind v);
             InputKind := OriginKind (OriginValueAndKind v);
             OriginValue := OriginValue (OriginValueAndKind v);
             OriginKind := OriginKind (OriginValueAndKind v) |}).
Proof.
  split; [ | split ].
  - intros v. cbn. pose proof (originValue_not_ptr v) as H. intros Heq.
    rewrite Heq in H. discriminate H.
  - reflexivity.
  - intros v. unfold OriginValueAndKind. cbn.
    now rewrite originValue_idem.
Qed.

End Origin.

(** ** Reading the first field of an encoded record *)

Lemma lenient_head (n : nat) (decode : list byte -> option Z) (read : Z -> Z) :
  (forall b, decode b = Some (read (le_combine b mod 2 ^ (8 * Z.of_nat n)))) ->
  forall enc more, length enc = n -> decode (enc ++ more) = decode enc.
Proof.
  intros Hdecode enc more Hlen. rewrite !Hdecode. do 2 f_equal.
  rewrite <- !le_combine_firstn, firstn_app, Hlen, Nat.sub_diag.
  cbn [firstn]. now rewrite app_nil_r.
Qed.

(** X25. The format is positional: a lenient decoder applied to the
    encoding of a whole list returns the first value of the list, when that
    value is of the decoder's type. *)
Theorem lenient_decode_first_field (v : Z) (rest : list Value) :
  (in_signed 8 v -> LeDecodeToInt8 (LeEncode (VInt8 v :: rest)) = Some v)
  /\ (in_unsigned 8 v ->
      LeDecodeToUint8 (LeEncode (VUint8 v :: rest)) = Some v)
  /\ (in_signed 16 v ->
      LeDecodeToInt16 (LeEncode (VInt16 v :: rest)) = Some v)
  /\ (in_unsigned 16 v ->
      LeDecodeToUint16 (LeEncode (VUint16 v :: rest)) = Some v)
  /\ (in_signed 32 v ->
      LeDecodeToInt32 (LeEncode (VInt32 v :: rest)) = Some v)
  /\ (in_unsigned 32 v ->
      LeDecodeToUint32 (LeEncode (VUint32 v :: rest)) = Some v)
  /\ (in_signed 64 v ->
      LeDecodeToInt64 (LeEncode (VInt64 v :: rest)) = Some v)
  /\ (in_unsigned 64 v ->
      LeDecodeToUint64 (LeEncode (VUint64 v :: rest)) = Some v).
Proof.
  repeat apply conj; intros Hv;
    rewrite LeEncode_cons by discriminate; cbn [encodeValue].
  - exact (roundtrip_int8 v Hv).
  - exact (roundtrip_uint8 v Hv).
  - rewrite (lenient_head 2 _ _ LeDecodeToInt16_value) by reflexivity.
    now apply roundtrip_int16.
  - rewrite (lenient_head 2 _ (fun u => u) LeDecodeToUint16_value) by reflexivity.
    now apply roundtrip_uint16.
  - rewrite (lenient_head 4 _ _ LeDecodeToInt32_value) by reflexivity.
    now apply roundtrip_int32.
  - rewrite (lenient_head 4 _ (fun u => u) LeDecodeToUint32_value) by reflexivity.
    now apply roundtrip_uint32.
  - rewrite (lenient_head 8 _ _ LeDecodeToInt64_value) by reflexivity.
    now apply roundtrip_int64.
  - rewrite (lenient_head 8 _ (fun u => u) LeDecodeToUint64_value) by reflexivity.
    now apply roundtrip_uint64.
Qed.

Lemma lenient_decode_first_field_witness :
  in_signed 16 (-2)
  /\ LeDecodeToInt16 (LeEncode [VInt16 (-2); VBool true; VNil]) = Some (-2).
Proof.
  assert (H : in_signed 16 (-2)) by (unfold in_signed; lia).
  split; [ exact H | ].
  exact (proj1 (proj2 (proj2
           (lenient_decode_first_field (-2) [VBool true; VNil]))) H).
Defined.

(** ** Fixed layout for the native integers *)

Lemma le_combine_LeEncodeUint v :
  in_unsigned 64 v -> le_combine (LeEncodeUint v) = v.
Proof.
  unfold in_unsigned. intros Hv.
  unfold LeEncodeUint, MaxUint8, MaxUint16, MaxUint32,
    to_uint8, to_uint16, to_uint32, to_uint64.
  repeat match goal with
         | |- context [?x <=? ?y] => destruct (Z.leb_spec x y)
         end.
  - unfold LeEncodeUint8. rewrite byte_of_Z_wrap, le_combine_byte.
    apply Z.mod_small. lia.
  - rewrite LeEncodeUint16_split, le_combine_split.
    cbn [Z.of_nat Pos.of_succ_nat Pos.succ Z.mul Pos.mul].
    unfold wrap. repeat rewrite (Z.mod_small v) by lia. reflexivity.
  - rewrite LeEncodeUint32_split, le_combine_split.
    cbn [Z.of_nat Pos.of_succ_nat Pos.succ Z.mul Pos.mul].
    unfold wrap. repeat rewrite (Z.mod_small v) by lia. reflexivity.
  - rewrite LeEncodeUint64_split, le_combine_split.
    cbn [Z.of_nat Pos.of_succ_nat Pos.succ Z.mul Pos.mul].
    unfold wrap. repeat rewrite (Z.mod_small v) by lia. reflexivity.
Qed.

Lemma LeEncodeByLength_is_fill (N : nat) (values : list Value) :
  exists r,
    LeEncodeByLength (Z.of_nat N) values = Some r
    /\ LeFillUpSize (LeEncode values) (Z.of_nat N) = Some r.
Proof.
  exists (firstn N (LeEncode values ++ make N)).
  split; [ | apply LeFillUpSize_normalize ].
  unfold LeEncodeByLength, len. set (b := LeEncode values).
  destruct (Z.ltb_spec (Z.of_nat (length b)) (Z.of_nat N)) as [Hlt | Hge].
  - rewrite firstn_app, firstn_all2, firstn_make by lia.
    do 3 f_equal. lia.
  - destruct (Z.gtb_spec (Z.of_nat (length b)) (Z.of_nat N)) as [Hgt | Hle].
    + destruct (Z.ltb_spec (Z.of_nat N) 0) as [Hneg | _]; [ lia | ].
      rewrite Nat2Z.id, firstn_app.
      replace (N - length b)%nat with 0%nat by lia.
      cbn [firstn]. now rewrite app_nil_r.
    + rewrite firstn_app, firstn_all2 by lia.
      replace (N - length b)%nat with 0%nat by lia.
      cbn [firstn]. now rewrite app_nil_r.
Qed.

(** X26. [LeEncodeByLength(8, v)] gives a native unsigned integer a fixed
    layout: the result has 8 bytes whatever width the sizer chose, and
    [LeDecodeToUint64] reads the value back from it. *)
Theorem LeEncodeByLength_fixes_uint (v : Z) :
  in_unsigned 64 v ->
  exists r,
    LeEncodeByLength 8 [VUint v] = Some r
    /\ len r = 8
    /\ LeDecodeToUint64 r = Some v.
Proof.
  intros Hv.
  destruct (LeEncodeByLength_is_fill 8 [VUint v]) as (r & Hr & Hfill).
  exists r. split; [ exact Hr | ].
  split.
  - unfold len. now rewrite (LeFillUpSize_length _ _ _ Hfill).
  - rewrite LeDecodeToUint64_value.
    rewrite (LeFillUpSize_combine _ _ _ Hfill).
    unfold LeEncode. cbn [LeEncode_from encodeValue app].
    rewrite le_combine_LeEncodeUint by exact Hv.
    change (2 ^ (8 * Z.of_nat 8)) with (2 ^ 64).
    unfold in_unsigned in Hv. repeat rewrite (Z.mod_small v) by lia.
    reflexivity.
Qed.

Lemma LeEncodeByLength_fixes_uint_witness :
  in_unsigned 64 300
  /\ exists r,
       LeEncodeByLength 8 [VUint 300] = Some r
       /\ len r = 8
       /\ LeDecodeToUint64 r = Some 300.
Proof.
  assert (H : in_unsigned 64 300) by (unfold in_unsigned; lia).
  split; [ exact H | exact (LeEncodeByLength_fixes_uint 300 H) ].
Defined.

(** ** The size of an encoded record *)

Section WireSize.
Import Cell.

(** X27. The encoding of fixed-width fields has exactly the number of bytes
    [LeDecode] consumes for destinations of the same kinds, whatever the
    values are. *)
Theorem LeEncode_wire_size (fields : list Field) :
  length (LeEncode (map fieldValue fields))
  = wireSize (map fieldSlot fields).
Proof.
  induction fields as [| [[k p] v] rest IH].
  - reflexivity.
  - cbn [map fieldValue fieldSlot].
    rewrite LeEncode_cons by apply valueOf_not_nil.
    rewrite length_app, wireSize_cons, IH. f_equal.
    destruct k; try reflexivity.
    cbn [valueOf encodeValue]. now destruct (negb (v =? 0)).
Qed.

End WireSize.
